(** * librdf statement streams (rdf_stream.c)

    A shallow embedding of the stream core and of the node-iterator
    adapter of [rdf_stream.c], and the properties of its specification.

    The C functions mutate a [librdf_stream] object through a pointer and
    call back into producer code through function pointers.  They are
    written here in a state monad over a [world]: the stream object, the
    environment the callbacks act on, and a log of the calls the stream
    core makes.

    The world holds one stream object, so a stream pointer is NULL or the
    address of that object.  The callbacks receive their [void*] context
    and act on the environment; they do not hold the stream, so a call
    leaves the stream object as it is.  The [while] loop of the map stage
    need not terminate for an arbitrary producer: it runs on fuel, and
    the properties of contract-keeping producers show that fuel beyond
    the number of remaining elements is enough. *)

From Stdlib Require Import ZArith List Lia Bool.
From stdpp Require Import base tactics option list.
Import ListNotations.

Local Open Scope Z_scope.

(** ** Outcomes of a C call *)

(** A call returns, aborts the process ([LIBRDF_FATAL2]), has undefined
    behaviour (a NULL or dangling pointer is dereferenced), or is cut off
    because the loop fuel of the model ran out. *)
Inductive outcome (A : Type) : Type :=
| Ret (a : A)
| Fatal
| Undef
| OutOfFuel.

Arguments Ret {A} a.
Arguments Fatal {A}.
Arguments Undef {A}.
Arguments OutOfFuel {A}.

(** A pointer to the one object of its kind that the model tracks. *)
Inductive pointer : Type := NULL | PTR.

(** C truth value of an [int]. *)
Definition truthy (v : Z) : bool := negb (v =? 0).

(** ** Stateful computations

    A computation over a state [S] that may fail to return. *)
Definition ST (S A : Type) : Type := S -> outcome (A * S).

Definition ret {S A} (a : A) : ST S A := fun s => Ret (a, s).

Definition bind {S A B} (c : ST S A) (k : A -> ST S B) : ST S B :=
  fun s =>
    match c s with
    | Ret (a, s') => k a s'
    | Fatal => Fatal
    | Undef => Undef
    | OutOfFuel => OutOfFuel
    end.

Notation "x <- c ;; k" := (bind c (fun x => k))
  (at level 100, c at next level, right associativity).
Notation "c ;;; k" := (bind c (fun _ => k))
  (at level 100, right associativity).

Lemma bind_Ret {S A B} (c : ST S A) (k : A -> ST S B) s a s1 :
  c s = Ret (a, s1) -> bind c k s = k a s1.
Proof. intros H. unfold bind. by rewrite H. Qed.

Lemma bind_inv {S A B} (c : ST S A) (k : A -> ST S B) s b s' :
  bind c k s = Ret (b, s') ->
  exists a s1, c s = Ret (a, s1) /\ k a s1 = Ret (b, s').
Proof.
  unfold bind. destruct (c s) as [[a s1]| | |]; try discriminate. eauto.
Qed.

Section Librdf.

(** Nodes are opaque to this file. *)
Variable librdf_node : Type.

(** Modelled from the spec: [librdf_statement] (rdf_statement.h is not
    part of these sources) is an ordered triple of node references
    (subject, predicate, object); a position may be absent. *)
Record librdf_statement : Type := {
  subject : option librdf_node;
  predicate : option librdf_node;
  object : option librdf_node
}.

Section StreamCore.

(** The environment the producer and map callbacks act on, and the
    addresses a [void*] context may hold. *)
Variable E : Type.
Variable addr : Type.

(** [LIBRDF_CALLOC] (librdf.h is not part of these sources): whether the
    allocation succeeds, and the environment afterwards. *)
Variable LIBRDF_CALLOC : E -> bool * E.

Definition end_of_stream_fn : Type := option addr -> ST E Z.
Definition next_statement_fn : Type :=
  option addr -> ST E (option librdf_statement).
Definition finished_fn : Type := option addr -> ST E unit.
Definition map_fn : Type :=
  option addr -> librdf_statement -> ST E (option librdf_statement).

(** Modelled from the spec: the declaration of [librdf_stream]
    (rdf_stream.h is not part of these sources), with the fields
    rdf_stream.c reads and writes: the producer context and its three
    operations, the optional map with its context, the lookahead slot
    [next] and the flag [is_end_stream], an [int] as [librdf_stream_end]
    returns it. *)
Record librdf_stream : Type := {
  context : option addr;
  end_of_stream : end_of_stream_fn;
  next_statement : next_statement_fn;
  finished : finished_fn;
  is_end_stream : Z;
  next : option librdf_statement;
  map : option map_fn;
  map_context : option addr
}.

(** Calls the stream core makes, in the order it makes them. *)
Inductive event : Type :=
| CallEndOfStream (r : Z)
| CallNextStatement (r : option librdf_statement)
| CallMap (arg : librdf_statement) (r : option librdf_statement)
| CallFinished
| FreeStatement (st : librdf_statement)
| FreeStream.

Record world : Type := {
  obj : option librdf_stream;   (* the stream object; None when not allocated *)
  env : E;
  log : list event
}.

(** The C functions of the stream core run on a world. *)
Definition M (A : Type) : Type := ST world A.

(** [*stream] *)
Definition load (stream : pointer) : M librdf_stream :=
  fun w =>
    match stream, obj w with
    | PTR, Some s => Ret (s, w)
    | _, _ => Undef
    end.

Definition store (s : librdf_stream) : M unit :=
  fun w => Ret (tt, {| obj := Some s; env := env w; log := log w |}).

Definition emit (ev : event) : M unit :=
  fun w => Ret (tt, {| obj := obj w; env := env w; log := log w ++ [ev] |}).

(** A call through one of the function pointers: the callback acts on
    the environment, the call is logged with its result. *)
Definition call {A} (f : ST E A) (ev : A -> event) : M A :=
  fun w =>
    match f (env w) with
    | Ret (a, e') =>
        Ret (a, {| obj := obj w; env := e'; log := log w ++ [ev a] |})
    | Fatal => Fatal
    | Undef => Undef
    | OutOfFuel => OutOfFuel
    end.

(** A direct call of a function that acts on the environment. *)
Definition direct {A} (f : ST E A) : M A :=
  fun w =>
    match f (env w) with
    | Ret (a, e') => Ret (a, {| obj := obj w; env := e'; log := log w |})
    | Fatal => Fatal
    | Undef => Undef
    | OutOfFuel => OutOfFuel
    end.

Definition set_is_end_stream (v : Z) (s : librdf_stream) : librdf_stream :=
  {| context := context s; end_of_stream := end_of_stream s;
     next_statement := next_statement s; finished := finished s;
     is_end_stream := v; next := next s;
     map := map s; map_context := map_context s |}.

Definition set_next (st : option librdf_statement) (s : librdf_stream)
  : librdf_stream :=
  {| context := context s; end_of_stream := end_of_stream s;
     next_statement := next_statement s; finished := finished s;
     is_end_stream := is_end_stream s; next := st;
     map := map s; map_context := map_context s |}.

(** Modelled from the spec: [librdf_free_statement] (rdf_statement.c is
    not part of these sources) releases a statement; the release is
    recorded. *)
Definition librdf_free_statement (st : librdf_statement) : M unit :=
  emit (FreeStatement st).

(** [LIBRDF_FREE(librdf_stream, stream)] *)
Definition LIBRDF_FREE (stream : pointer) : M unit :=
  fun w =>
    match stream, obj w with
    | PTR, Some _ =>
        Ret (tt, {| obj := None; env := env w; log := log w ++ [FreeStream] |})
    | _, _ => Undef
    end.

(** [librdf_new_stream]; the [world] argument of the C function is not
    used by it. *)
Definition librdf_new_stream (context : option addr)
    (end_of_stream : end_of_stream_fn)
    (next_statement : next_statement_fn)
    (finished : finished_fn) : M pointer :=
  fun w =>
    let (ok, e') := LIBRDF_CALLOC (env w) in
    if ok then
      Ret (PTR,
           {| obj := Some {| context := context;
                             end_of_stream := end_of_stream;
                             next_statement := next_statement;
                             finished := finished;
                             is_end_stream := 0;
                             next := None;
                             map := None;
                             map_context := None |};
              env := e'; log := log w |})
    else Ret (NULL, {| obj := obj w; env := e'; log := log w |}).

(** [librdf_free_stream] *)
Definition librdf_free_stream (stream : pointer) : M unit :=
  s <- load stream ;;
  call (finished s (context s)) (fun _ => CallFinished) ;;;
  match next s with
  | Some st => librdf_free_statement st
  | None => ret tt
  end ;;;
  LIBRDF_FREE stream.

(** [librdf_stream_get_next_mapped_statement]; every evaluation of the
    [while] condition takes one unit of fuel.  The local [statement] is
    NULL whenever the condition is evaluated: at entry, and after the
    map has discarded an element. *)
Fixpoint librdf_stream_get_next_mapped_statement (fuel : nat)
    (stream : pointer) : M (option librdf_statement) :=
  match fuel with
  | O => fun _ => OutOfFuel
  | S fuel' =>
      s <- load stream ;;
      e <- call (end_of_stream s (context s)) CallEndOfStream ;;
      if truthy e then ret None
      else
        statement <- call (next_statement s (context s)) CallNextStatement ;;
        match statement with
        | None => ret None
        | Some st =>
            statement <-
              match map s with
              | Some m => call (m (map_context s) st) (CallMap st)
              | None => fun _ => Undef
              end ;;
            match statement with
            | Some _ => ret statement
            | None => librdf_stream_get_next_mapped_statement fuel' stream
            end
        end
  end.

(** [librdf_stream_next] *)
Definition librdf_stream_next (fuel : nat) (stream : pointer)
  : M (option librdf_statement) :=
  s <- load stream ;;
  if truthy (is_end_stream s) then ret None
  else
    match map s with
    | None => call (next_statement s (context s)) CallNextStatement
    | Some _ =>
        match next s with
        | Some st => store (set_next None s) ;;; ret (Some st)
        | None =>
            statement <- librdf_stream_get_next_mapped_statement fuel stream ;;
            match statement with
            | None => store (set_is_end_stream 1 s)
            | Some _ => ret tt
            end ;;;
            ret statement
        end
    end.

(** [librdf_stream_end] *)
Definition librdf_stream_end (fuel : nat) (stream : pointer) : M Z :=
  match stream with
  | NULL => ret 1
  | PTR =>
      s <- load stream ;;
      if truthy (is_end_stream s) then ret 1
      else
        match map s with
        | None =>
            v <- call (end_of_stream s (context s)) CallEndOfStream ;;
            store (set_is_end_stream v s) ;;;
            ret v
        | Some _ =>
            match next s with
            | Some _ => ret 0
            | None =>
                st <- librdf_stream_get_next_mapped_statement fuel stream ;;
                store (set_next st s) ;;;
                match st with
                | None => store (set_is_end_stream 1 (set_next st s))
                | Some _ => ret tt
                end ;;;
                s' <- load stream ;;
                ret (is_end_stream s')
            end
        end
  end.

(** [librdf_stream_set_map] *)
Definition librdf_stream_set_map (stream : pointer) (map : option map_fn)
    (map_context : option addr) : M unit :=
  s <- load stream ;;
  store {| context := context s; end_of_stream := end_of_stream s;
           next_statement := next_statement s; finished := finished s;
           is_end_stream := is_end_stream s; next := next s;
           map := map; map_context := map_context |}.

(** ** Consumers

    A consumer drives the stream by a sequence of calls. *)

Inductive op : Type :=
| OpEnd
| OpNext
| OpSetMap (map : option map_fn) (map_context : option addr).

Inductive result : Type :=
| REnd (v : Z)
| RNext (st : option librdf_statement)
| RSetMap.

Definition run_op (fuel : nat) (stream : pointer) (o : op) : M result :=
  match o with
  | OpEnd => v <- librdf_stream_end fuel stream ;; ret (REnd v)
  | OpNext => st <- librdf_stream_next fuel stream ;; ret (RNext st)
  | OpSetMap m mc => librdf_stream_set_map stream m mc ;;; ret RSetMap
  end.

Fixpoint run_ops (fuel : nat) (stream : pointer) (os : list op)
  : M (list result) :=
  match os with
  | [] => ret []
  | o :: os' =>
      r <- run_op fuel stream o ;;
      rs <- run_ops fuel stream os' ;;
      ret (r :: rs)
  end.

(** What the [next] calls of a run returned, in call order. *)
Definition nexts (rs : list result) : list (option librdf_statement) :=
  omap (fun r => match r with RNext st => Some st | _ => None end) rs.

(** What the [end] calls of a run answered, as truth values. *)
Definition ends (rs : list result) : list bool :=
  omap (fun r => match r with REnd v => Some (truthy v) | _ => None end) rs.

(** A call that consumes: [end] or [next]. *)
Definition plain (o : op) : bool :=
  match o with OpSetMap _ _ => false | _ => true end.

Definition is_next (o : op) : bool :=
  match o with OpNext => true | _ => false end.

(** The consumer's view of a stream that is to serve the list [P]: a
    forward iterator. [served] is what its [next] calls return, [reported]
    what its [end] calls answer. *)
Fixpoint served (os : list op) (P : list librdf_statement)
  : list (option librdf_statement) :=
  match os with
  | [] => []
  | OpNext :: os' => head P :: served os' (tail P)
  | _ :: os' => served os' P
  end.

Fixpoint reported (os : list op) (P : list librdf_statement) : list bool :=
  match os with
  | [] => []
  | OpNext :: os' => reported os' (tail P)
  | OpEnd :: os' =>
      match P with [] => true | _ => false end :: reported os' P
  | _ :: os' => reported os' P
  end.

(** Raw elements pulled from the producer: calls of [next_statement]. *)
Definition is_pull (ev : event) : bool :=
  match ev with CallNextStatement _ => true | _ => false end.

Definition pulls (l : list event) : nat := length (List.filter is_pull l).

Definition is_finalize (ev : event) : bool :=
  match ev with CallFinished => true | _ => false end.

Definition finalize_calls (l : list event) : nat :=
  length (List.filter is_finalize l).

(** Statements held by the lookahead slot. *)
Definition lookahead (w : world) : list librdf_statement :=
  match obj w with
  | Some s => option_list (next s)
  | None => []
  end.

Ltac unfold_m :=
  unfold run_op, librdf_stream_end, librdf_stream_next, librdf_stream_set_map,
    librdf_free_stream, librdf_free_statement, LIBRDF_FREE,
    bind, load, store, ret, emit, call in *.

(** ** The ended flag and the frame of [set_map] *)

(** Once the flag is set, no operation touches the producer, the
    environment or the stream object, apart from [set_map] writing its
    two fields. *)
Lemma run_op_ended fuel o w s :
  obj w = Some s ->
  truthy (is_end_stream s) = true ->
  exists r s',
    run_op fuel PTR o w
      = Ret (r, {| obj := Some s'; env := env w; log := log w |})
    /\ is_end_stream s' = is_end_stream s
    /\ next s' = next s.
Proof.
  intros Hobj Hend. destruct w as [ob e l]; simpl in *; subst ob.
  destruct o as [| |m mc]; unfold_m; simpl; rewrite ?Hend; simpl; eauto.
Qed.

Lemma run_ops_ended fuel os : forall w s,
  obj w = Some s ->
  truthy (is_end_stream s) = true ->
  exists rs s',
    run_ops fuel PTR os w
      = Ret (rs, {| obj := Some s'; env := env w; log := log w |})
    /\ is_end_stream s' = is_end_stream s
    /\ next s' = next s.
Proof.
  induction os as [|o os IH]; intros w s Hobj Hend.
  - exists [], s. destruct w; simpl in *; subst. auto.
  - destruct (run_op_ended fuel o w s Hobj Hend) as (r & s1 & Hr & He & Hn).
    destruct (IH {| obj := Some s1; env := env w; log := log w |} s1 eq_refl)
      as (rs & s2 & Hrs & He2 & Hn2); [congruence|].
    exists (r :: rs), s2. simpl. unfold bind at 1. rewrite Hr.
    unfold bind at 1. rewrite Hrs. simpl. split; [reflexivity|].
    split; congruence.
Qed.

(** C2. Once the ended flag is set, every further sequence of [end],
    [next] and [set_map] calls returns and leaves the flag set (its value
    and the lookahead slot are not written at all, and neither the
    producer nor the map is called); and in every world a run reaches, the
    lookahead slot holds at most one statement. *)
Theorem ended_flag_sticky_and_single_lookahead :
  (forall fuel os w s,
      obj w = Some s ->
      truthy (is_end_stream s) = true ->
      exists rs w' s',
        run_ops fuel PTR os w = Ret (rs, w')
        /\ obj w' = Some s'
        /\ truthy (is_end_stream s') = true
        /\ env w' = env w /\ log w' = log w)
  /\ (forall fuel os w rs w',
        run_ops fuel PTR os w = Ret (rs, w') ->
        (length (lookahead w') <= 1)%nat).
Proof.
  split.
  - intros fuel os w s Hobj Hend.
    destruct (run_ops_ended fuel os w s Hobj Hend) as (rs & s' & Hrs & He & _).
    exists rs, {| obj := Some s'; env := env w; log := log w |}, s'.
    rewrite He. auto.
  - intros fuel os w rs w' _. unfold lookahead.
    destruct (obj w') as [s'|]; [destruct (next s')|]; simpl; lia.
Qed.

(** C10. [set_map] writes the map function and the map context, and
    nothing else: the producer context, the three producer operations,
    the lookahead slot and the ended flag of the stream object are the
    old ones, also when a map was installed and a statement is buffered;
    no callback is called. *)
Theorem set_map_frame (w : world) (s : librdf_stream)
    (m : option map_fn) (mc : option addr) :
  obj w = Some s ->
  exists s',
    librdf_stream_set_map PTR m mc w
      = Ret (tt, {| obj := Some s'; env := env w; log := log w |})
    /\ map s' = m /\ map_context s' = mc
    /\ context s' = context s
    /\ end_of_stream s' = end_of_stream s
    /\ next_statement s' = next_statement s
    /\ finished s' = finished s
    /\ next s' = next s
    /\ is_end_stream s' = is_end_stream s.
Proof.
  intros Hobj. unfold_m. rewrite Hobj. simpl.
  eexists. split; [reflexivity|]. simpl. repeat split.
Qed.

(** C9. [librdf_stream_end] on a NULL stream returns 1 and touches
    nothing; [librdf_stream_next] and [librdf_free_stream] have no such
    guard: on a NULL stream they dereference it. *)
Theorem end_of_null_stream (fuel : nat) (w : world) :
  librdf_stream_end fuel NULL w = Ret (1, w)
  /\ librdf_stream_next fuel NULL w = Undef
  /\ librdf_free_stream NULL w = Undef.
Proof. repeat split. Qed.

(** C5. Whatever state the stream is in (nothing consumed, some
    elements consumed, exhausted), [librdf_free_stream] calls the
    producer's [finished] once, then releases the statement in the
    lookahead slot if there is one, then releases the stream object. *)
Theorem free_stream_finalizes_once (w : world) (s : librdf_stream) (e' : E) :
  obj w = Some s ->
  finished s (context s) (env w) = Ret (tt, e') ->
  exists w',
    librdf_free_stream PTR w = Ret (tt, w')
    /\ obj w' = None
    /\ env w' = e'
    /\ log w' = log w ++ [CallFinished]
                      ++ List.map FreeStatement (option_list (next s))
                      ++ [FreeStream]
    /\ finalize_calls (log w') = S (finalize_calls (log w)).
Proof.
  intros Hobj Hfin. destruct w as [ob e l]; simpl in *; subst ob.
  unfold_m. simpl. rewrite Hfin. simpl. unfold finalize_calls.
  destruct (next s) as [st|]; simpl; eexists; (split; [reflexivity|]); simpl;
    rewrite <- ?app_assoc; simpl; repeat split;
    rewrite !List.filter_app, !length_app; simpl; lia.
Qed.

(** Inversion and rewriting for [load] and [call]. *)
Lemma load_inv stream w s w' :
  load stream w = Ret (s, w') -> stream = PTR /\ obj w = Some s /\ w' = w.
Proof.
  unfold load. destruct stream; [discriminate|].
  destruct (obj w); [|discriminate]. by inversion 1.
Qed.

Lemma call_inv {A} (f : ST E A) (ev : A -> event) w a w' :
  call f ev w = Ret (a, w') ->
  exists e', f (env w) = Ret (a, e')
    /\ w' = {| obj := obj w; env := e'; log := log w ++ [ev a] |}.
Proof.
  unfold call. destruct (f (env w)) as [[a' e']| | |]; try discriminate.
  inversion 1; subst. eauto.
Qed.

Lemma call_Ret {A} (f : ST E A) (ev : A -> event) w a e' :
  f (env w) = Ret (a, e') ->
  call f ev w = Ret (a, {| obj := obj w; env := e'; log := log w ++ [ev a] |}).
Proof. intros H. unfold call. by rewrite H. Qed.

(** The loop does not write the stream object: what its callers have
    loaded before it is still the object's contents after it. *)
Lemma get_next_mapped_obj fuel : forall w r w',
  librdf_stream_get_next_mapped_statement fuel PTR w = Ret (r, w') ->
  obj w' = obj w.
Proof.
  induction fuel as [|fuel IH]; intros w r w' H; [discriminate|].
  simpl in H.
  apply bind_inv in H as (s & w1 & Hl & H).
  apply load_inv in Hl as (_ & Hobj & ->).
  apply bind_inv in H as (v & w2 & Hc & H).
  apply call_inv in Hc as (e1 & _ & ->).
  destruct (truthy v); [by inversion H|].
  apply bind_inv in H as (st & w3 & Hc & H).
  apply call_inv in Hc as (e2 & _ & ->). simpl in *.
  destruct st as [st|]; [|by inversion H].
  apply bind_inv in H as (y & w4 & Hc & H).
  destruct (map s) as [mf|]; [|discriminate].
  apply call_inv in Hc as (e3 & _ & ->). simpl in *.
  destruct y as [y|]; [by inversion H|].
  by apply IH in H.
Qed.

(** C3. [end] on a stream with a map installed and the flag clear.  With
    a statement buffered it returns 0 and calls nothing.  With the slot
    empty it runs the find-next loop: a found statement is stored in the
    slot and 0 is returned; when the loop yields nothing the slot stays
    empty, the flag is set to 1 and 1 is returned; when the loop does not
    return, [end] does not either. *)
Theorem end_with_map (fuel : nat) (w : world) (s : librdf_stream)
    (m : map_fn) :
  obj w = Some s ->
  map s = Some m ->
  truthy (is_end_stream s) = false ->
  (forall st, next s = Some st -> librdf_stream_end fuel PTR w = Ret (0, w))
  /\ (next s = None ->
      match librdf_stream_get_next_mapped_statement fuel PTR w with
      | Ret (Some st, w') =>
          librdf_stream_end fuel PTR w
          = Ret (0, {| obj := Some (set_next (Some st) s);
                       env := env w'; log := log w' |})
      | Ret (None, w') =>
          librdf_stream_end fuel PTR w
          = Ret (1, {| obj := Some (set_is_end_stream 1 (set_next None s));
                       env := env w'; log := log w' |})
      | Fatal => librdf_stream_end fuel PTR w = Fatal
      | Undef => librdf_stream_end fuel PTR w = Undef
      | OutOfFuel => librdf_stream_end fuel PTR w = OutOfFuel
      end).
Proof.
  intros Hobj Hmap Hend.
  assert (Hz : is_end_stream s = 0).
  { unfold truthy in Hend. apply negb_false_iff in Hend. lia. }
  split.
  - intros st Hst. unfold librdf_stream_end, bind, load, ret.
    rewrite Hobj, Hend, Hmap, Hst. reflexivity.
  - intros Hnone.
    assert (Hl : load PTR w = Ret (s, w)) by (unfold load; by rewrite Hobj).
    unfold librdf_stream_end. rewrite (bind_Ret _ _ _ _ _ Hl).
    rewrite Hend, Hmap, Hnone.
    destruct (librdf_stream_get_next_mapped_statement fuel PTR w)
      as [[[st|] w']| | |] eqn:Hloop;
      try (unfold bind; by rewrite Hloop).
    rewrite (bind_Ret _ _ _ _ _ Hloop). unfold bind, store, load, ret. simpl.
    by rewrite Hz.
Qed.

(** ** The call log of a run, for any producer *)

(** Releases: of a statement, or of the stream object. *)
Definition is_release (ev : event) : bool :=
  match ev with FreeStatement _ | FreeStream => true | _ => false end.

(** Events that neither finalize the producer nor release anything. *)
Definition harmless (evs : list event) : Prop :=
  Forall (fun ev => is_finalize ev = false /\ is_release ev = false) evs.

(** The statements the producer yielded, the statements the map was
    called on, and the statements the map returned, in call order. *)
Definition pulled (l : list event) : list librdf_statement :=
  omap (fun ev => match ev with CallNextStatement r => r | _ => None end) l.

Definition map_args (l : list event) : list librdf_statement :=
  omap (fun ev => match ev with CallMap a _ => Some a | _ => None end) l.

Definition map_results (l : list event) : list librdf_statement :=
  omap (fun ev => match ev with CallMap _ r => r | _ => None end) l.

(** The statements the [next] calls of a run handed to the consumer. *)
Definition returned (r : result) : list librdf_statement :=
  match r with RNext (Some st) => [st] | _ => [] end.

Definition delivered (rs : list result) : list librdf_statement :=
  flat_map returned rs.

(** The producer side of two stream objects is the same. *)
Definition same_producer (s s' : librdf_stream) : Prop :=
  context s' = context s /\ end_of_stream s' = end_of_stream s
  /\ next_statement s' = next_statement s /\ finished s' = finished s.

Lemma same_producer_trans (s1 s2 s3 : librdf_stream) :
  same_producer s1 s2 -> same_producer s2 s3 -> same_producer s1 s3.
Proof.
  unfold same_producer. intros (? & ? & ? & ?) (? & ? & ? & ?).
  repeat split; congruence.
Qed.

Lemma harmless_app (l1 l2 : list event) :
  harmless l1 -> harmless l2 -> harmless (l1 ++ l2).
Proof. unfold harmless. intros. by apply Forall_app. Qed.

Lemma harmless_counts (evs : list event) :
  harmless evs ->
  finalize_calls evs = 0%nat
  /\ length (List.filter is_release evs) = 0%nat.
Proof.
  unfold finalize_calls. induction 1 as [|ev evs [Hf Hr] _ [IH1 IH2]];
    simpl; [auto|]. by rewrite Hf, Hr.
Qed.

Ltac inv_ret H := unfold ret in H; inversion H; subst; clear H.

(** The find-next loop, whenever it returns: it calls the map on the
    statements it pulls, in order, and what the map returned last is
    what the loop returns. *)
Lemma get_next_mapped_trace fuel : forall w s r w',
  obj w = Some s ->
  librdf_stream_get_next_mapped_statement fuel PTR w = Ret (r, w') ->
  exists evs,
    log w' = log w ++ evs
    /\ obj w' = Some s
    /\ harmless evs
    /\ map_args evs = pulled evs
    /\ map_results evs = option_list r.
Proof.
  induction fuel as [|fuel IH]; intros w s r w' Hobj H; [discriminate|].
  simpl in H.
  apply bind_inv in H as (s0 & w1 & Hl & H).
  apply load_inv in Hl as (_ & Hobj0 & ->).
  assert (s0 = s) by congruence. subst s0.
  apply bind_inv in H as (v & w2 & Hc & H).
  apply call_inv in Hc as (e1 & _ & ->).
  destruct (truthy v).
  { inv_ret H. exists [CallEndOfStream v]. simpl.
    repeat split; auto. repeat constructor. }
  apply bind_inv in H as (st & w3 & Hc & H).
  apply call_inv in Hc as (e2 & _ & ->). simpl in *.
  destruct st as [st|].
  2:{ inv_ret H. exists [CallEndOfStream v; CallNextStatement None]. simpl.
      rewrite <- app_assoc. repeat split; auto. repeat constructor. }
  apply bind_inv in H as (y & w4 & Hc & H).
  destruct (map s) as [mf|]; [|discriminate].
  apply call_inv in Hc as (e3 & _ & ->). simpl in *.
  destruct y as [y|].
  { inv_ret H.
    exists [CallEndOfStream v; CallNextStatement (Some st);
            CallMap st (Some y)].
    simpl. rewrite <- !app_assoc. repeat split; auto. repeat constructor. }
  eapply IH in H as (evs & Hlog & Hobj' & Hh & Hargs & Hres); [|exact Hobj].
  exists ([CallEndOfStream v; CallNextStatement (Some st); CallMap st None]
            ++ evs).
  simpl in Hlog. rewrite Hlog, <- !app_assoc. simpl.
  repeat split; auto.
  - unfold harmless. repeat (constructor; [by split|]). exact Hh.
  - by rewrite Hargs.
Qed.

(** One [end] or [next] call, whenever it returns. *)
Lemma run_op_trace fuel o w s r w' :
  obj w = Some s ->
  plain o = true ->
  run_op fuel PTR o w = Ret (r, w') ->
  exists s' evs,
    obj w' = Some s'
    /\ log w' = log w ++ evs
    /\ map s' = map s
    /\ same_producer s s'
    /\ harmless evs
    /\ (is_Some (map s) ->
        map_args evs = pulled evs
        /\ lookahead w ++ map_results evs = returned r ++ lookahead w')
    /\ (map s = None ->
        map_args evs = [] /\ pulled evs = returned r /\ next s' = next s).
Proof.
  intros Hobj Hplain H. unfold same_producer.
  assert (Hnil : forall w0 : world, log w0 = log w0 ++ [])
    by (intros; by rewrite app_nil_r).
  destruct o as [| |mf' mc']; [| |discriminate]; simpl in H;
    apply bind_inv in H as (v & w1 & H & Hr); inv_ret Hr.
  - (* end *)
    unfold librdf_stream_end in H.
    apply bind_inv in H as (s0 & w2 & Hl & H).
    apply load_inv in Hl as (_ & Hobj0 & ->).
    assert (s0 = s) by congruence. subst s0.
    destruct (truthy (is_end_stream s)).
    { inv_ret H. exists s, []. unfold lookahead. rewrite Hobj, !app_nil_r.
      repeat split; auto. constructor. }
    destruct (map s) as [mf|] eqn:Hmap.
    + destruct (next s) as [st|] eqn:Hnx.
      { inv_ret H. exists s, []. unfold lookahead.
        rewrite Hobj, !app_nil_r. repeat split; auto; try done.
        constructor. }
      apply bind_inv in H as (r0 & w2 & Hloop & H).
      destruct (get_next_mapped_trace _ _ _ _ _ Hobj Hloop)
        as (evs & Hlog & Hobj2 & Hh & Hargs & Hres).
      unfold bind, store, load, ret in H. simpl in H.
      exists (match r0 with
              | Some _ => set_next r0 s
              | None => set_is_end_stream 1 (set_next r0 s)
              end), evs.
      unfold lookahead. rewrite Hobj, Hnx.
      destruct r0 as [y|]; inversion H; subst; clear H; simpl;
        repeat split; auto; try done; by rewrite Hres.
    + apply bind_inv in H as (v0 & w2 & Hc & H).
      apply call_inv in Hc as (e1 & _ & ->).
      unfold bind, store, ret in H. simpl in H. inversion H; subst; clear H.
      exists (set_is_end_stream v s), [CallEndOfStream v]. simpl.
      repeat split; auto; try done; try (by intros [? ?]).
      repeat constructor.
  - (* next *)
    unfold librdf_stream_next in H.
    apply bind_inv in H as (s0 & w2 & Hl & H).
    apply load_inv in Hl as (_ & Hobj0 & ->).
    assert (s0 = s) by congruence. subst s0.
    destruct (truthy (is_end_stream s)).
    { inv_ret H. exists s, []. unfold lookahead. rewrite Hobj, !app_nil_r.
      repeat split; auto. constructor. }
    destruct (map s) as [mf|] eqn:Hmap.
    + destruct (next s) as [st|] eqn:Hnx.
      { unfold bind, store, ret in H. inversion H; subst; clear H.
        exists (set_next None s), []. unfold lookahead. simpl.
        rewrite Hobj, Hnx, !app_nil_r. simpl.
        repeat split; auto; try done. constructor. }
      apply bind_inv in H as (r0 & w2 & Hloop & H).
      destruct (get_next_mapped_trace _ _ _ _ _ Hobj Hloop)
        as (evs & Hlog & Hobj2 & Hh & Hargs & Hres).
      unfold bind, store, ret in H. simpl in H.
      exists (match r0 with
              | Some _ => s
              | None => set_is_end_stream 1 s
              end), evs.
      unfold lookahead. rewrite Hobj, Hnx.
      destruct r0 as [y|]; inversion H; subst; clear H; simpl;
        rewrite ?Hobj2, ?Hnx; simpl;
        repeat split; auto; try done; by rewrite Hres, ?app_nil_r.
    + apply call_inv in H as (e1 & _ & ->).
      exists s, [CallNextStatement v]. simpl.
      repeat split; auto; try done; try (by intros [? ?]).
      repeat constructor.
Qed.

Lemma delivered_cons (r : result) (rs : list result) :
  delivered (r :: rs) = returned r ++ delivered rs.
Proof. reflexivity. Qed.

(** A run of [end] and [next] calls, whenever it returns. *)
Lemma run_ops_trace fuel os : forall w s rs w',
  obj w = Some s ->
  forallb plain os = true ->
  run_ops fuel PTR os w = Ret (rs, w') ->
  exists s' evs,
    obj w' = Some s'
    /\ log w' = log w ++ evs
    /\ map s' = map s
    /\ same_producer s s'
    /\ harmless evs
    /\ (is_Some (map s) ->
        map_args evs = pulled evs
        /\ lookahead w ++ map_results evs = delivered rs ++ lookahead w')
    /\ (map s = None ->
        map_args evs = [] /\ pulled evs = delivered rs /\ next s' = next s).
Proof.
  induction os as [|o os IH]; intros w s rs w' Hobj Hplain H.
  { inv_ret H. exists s, []. rewrite !app_nil_r.
    repeat split; auto. constructor. }
  simpl in Hplain. apply andb_true_iff in Hplain as [Ho Hos].
  simpl in H.
  apply bind_inv in H as (r & w1 & Hop & H).
  apply bind_inv in H as (rs1 & w2 & Hrun & H). inv_ret H.
  destruct (run_op_trace _ _ _ _ _ _ Hobj Ho Hop)
    as (s1 & evs1 & Hobj1 & Hlog1 & Hmap1 & Hsp1 & Hh1 & Hsome1 & Hnone1).
  destruct (IH _ _ _ _ Hobj1 Hos Hrun)
    as (s2 & evs2 & Hobj2 & Hlog2 & Hmap2 & Hsp2 & Hh2 & Hsome2 & Hnone2).
  exists s2, (evs1 ++ evs2).
  rewrite Hlog2, Hlog1, <- app_assoc, delivered_cons.
  unfold map_args, pulled, map_results in *. rewrite !omap_app.
  split; [done|]. split; [done|]. split; [congruence|].
  split; [by eapply same_producer_trans|].
  split; [by apply harmless_app|]. split.
  - intros Hm. destruct (Hsome1 Hm) as [Ha1 Hl1].
    destruct Hsome2 as [Ha2 Hl2]; [by rewrite Hmap1|].
    split; [by rewrite Ha1, Ha2|].
    rewrite app_assoc, Hl1, <- app_assoc, Hl2, app_assoc. reflexivity.
  - intros Hm. destruct (Hnone1 Hm) as (Ha1 & Hp1 & Hn1).
    destruct Hnone2 as (Ha2 & Hp2 & Hn2); [by rewrite Hmap1|].
    rewrite Ha1, Ha2, Hp1, Hp2. repeat split; auto. congruence.
Qed.

Lemma load_inv_Ret w s : obj w = Some s -> load PTR w = Ret (s, w).
Proof. intros H. unfold load. by rewrite H. Qed.

Lemma truthy_false_0 v : truthy v = false -> v = 0.
Proof. unfold truthy. intros H. apply negb_false_iff in H. lia. Qed.

Lemma run_op_harmless fuel o w s r w' :
  obj w = Some s ->
  run_op fuel PTR o w = Ret (r, w') ->
  exists s' evs,
    obj w' = Some s' /\ log w' = log w ++ evs /\ harmless evs
    /\ same_producer s s'.
Proof.
  intros Hobj H. destruct (plain o) eqn:Hplain.
  - destruct (run_op_trace _ _ _ _ _ _ Hobj Hplain H)
      as (s' & evs & ? & ? & _ & ? & ? & _). eauto 10.
  - destruct o as [| |mf mc]; try discriminate.
    unfold run_op, librdf_stream_set_map, bind, load, store, ret in H.
    rewrite Hobj in H. inversion H; subst; clear H.
    eexists _, []. simpl. rewrite app_nil_r. repeat split. constructor.
Qed.

(** X7. No sequence of [end], [next] and [set_map] calls, over any
    producer and any map, calls the producer's [finished] or releases a
    statement or the stream object: whenever the run returns, the log has
    grown by calls of the end test, of next and of the map only, the
    stream object is still there, and its producer context and three
    producer operations are the ones it had. In particular a statement
    the map discards is not released by the stream core. *)
Theorem run_never_finalizes_or_releases (fuel : nat) (os : list op) :
  forall (w : world) (s : librdf_stream) (rs : list result) (w' : world),
    obj w = Some s ->
    run_ops fuel PTR os w = Ret (rs, w') ->
    exists s' evs,
      obj w' = Some s'
      /\ same_producer s s'
      /\ log w' = log w ++ evs
      /\ finalize_calls evs = 0%nat
      /\ length (List.filter is_release evs) = 0%nat.
Proof.
  induction os as [|o os IH]; intros w s rs w' Hobj H.
  { inv_ret H. exists s, []. rewrite app_nil_r. by repeat split. }
  simpl in H.
  apply bind_inv in H as (r & w1 & Hop & H).
  apply bind_inv in H as (rs1 & w2 & Hrun & H). inv_ret H.
  destruct (run_op_harmless _ _ _ _ _ _ Hobj Hop)
    as (s1 & evs1 & Hobj1 & Hlog1 & Hh1 & Hsp1).
  destruct (IH _ _ _ _ Hobj1 Hrun)
    as (s2 & evs2 & Hobj2 & Hsp2 & Hlog2 & Hf2 & Hr2).
  exists s2, (evs1 ++ evs2). rewrite Hlog2, Hlog1, <- app_assoc.
  destruct (harmless_counts _ Hh1) as [Hf1 Hr1].
  unfold finalize_calls in *.
  rewrite !List.filter_app, !length_app, Hf1, Hf2, Hr1, Hr2.
  split; [done|]. split; [by eapply same_producer_trans|]. auto.
Qed.

(** X8. Nothing is lost and nothing is duplicated, for any producer and
    any map, whenever a run of [end] and [next] calls returns. With a map
    installed the map is called on exactly the statements pulled from the
    producer, once each and in order, and the statements the map returned
    are, in order, those the [next] calls handed out followed by the one
    in the lookahead slot (counting the one buffered before the run).
    With no map the map is never called, and the [next] calls hand out
    exactly the statements pulled, in order. *)
Theorem run_conserves_statements (fuel : nat) (os : list op)
    (w : world) (s : librdf_stream) (rs : list result) (w' : world) :
  obj w = Some s ->
  forallb plain os = true ->
  run_ops fuel PTR os w = Ret (rs, w') ->
  exists evs,
    log w' = log w ++ evs
    /\ (is_Some (map s) ->
        map_args evs = pulled evs
        /\ lookahead w ++ map_results evs = delivered rs ++ lookahead w')
    /\ (map s = None ->
        map_args evs = [] /\ pulled evs = delivered rs
        /\ lookahead w' = lookahead w).
Proof.
  intros Hobj Hplain H.
  destruct (run_ops_trace _ _ _ _ _ _ Hobj Hplain H)
    as (s' & evs & Hobj' & Hlog & _ & _ & _ & Hsome & Hnone).
  exists evs. split; [done|]. split; [done|].
  intros Hm. destruct (Hnone Hm) as (? & ? & Hn).
  unfold lookahead. rewrite Hobj, Hobj', Hn. auto.
Qed.

(** X5. [end] with no map installed hands the producer's own answer
    through: when the end test returns a non-zero [v], the first [end]
    returns [v] and stores it in the flag; from then on [end] returns 1
    and [next] returns NULL, and neither calls the producer. *)
Theorem end_without_map_latches_raw_answer (fuel : nat) (w : world)
    (s : librdf_stream) (v : Z) (e' : E) :
  obj w = Some s ->
  map s = None ->
  truthy (is_end_stream s) = false ->
  end_of_stream s (context s) (env w) = Ret (v, e') ->
  truthy v = true ->
  let w1 := {| obj := Some (set_is_end_stream v s); env := e';
               log := log w ++ [CallEndOfStream v] |} in
  librdf_stream_end fuel PTR w = Ret (v, w1)
  /\ librdf_stream_end fuel PTR w1 = Ret (1, w1)
  /\ librdf_stream_next fuel PTR w1 = Ret (None, w1).
Proof.
  intros Hobj Hmap Hflag Heos Hv. simpl.
  unfold librdf_stream_end, librdf_stream_next.
  rewrite (bind_Ret _ _ _ _ _ (load_inv_Ret _ _ Hobj)).
  rewrite Hflag, Hmap.
  rewrite (bind_Ret _ _ _ _ _ (call_Ret _ CallEndOfStream _ _ _ Heos)).
  unfold bind, store, load, ret. simpl. by rewrite Hv.
Qed.

(** X6. [set_map] while a statement is buffered. When the map is taken
    away, [next] goes straight to the producer: the buffered statement is
    not handed out, it stays in the slot until [librdf_free_stream]
    releases it. When the map is replaced by another one, the following
    [end] and [next] hand out the buffered statement as it is, and the new
    map is not called on it. *)
Theorem set_map_with_buffered_statement (fuel : nat) (w : world)
    (s : librdf_stream) (st : librdf_statement) :
  obj w = Some s ->
  truthy (is_end_stream s) = false ->
  next s = Some st ->
  (forall mc r e1 e2,
      next_statement s (context s) (env w) = Ret (r, e1) ->
      finished s (context s) e1 = Ret (tt, e2) ->
      exists w2 w3,
        run_ops fuel PTR [OpSetMap None mc; OpNext] w
          = Ret ([RSetMap; RNext r], w2)
        /\ lookahead w2 = [st]
        /\ log w2 = log w ++ [CallNextStatement r]
        /\ librdf_free_stream PTR w2 = Ret (tt, w3)
        /\ log w3
           = log w2 ++ [CallFinished; FreeStatement st; FreeStream])
  /\ (forall m2 mc2,
        exists w2,
          run_ops fuel PTR [OpSetMap (Some m2) mc2; OpEnd; OpNext] w
            = Ret ([RSetMap; REnd 0; RNext (Some st)], w2)
          /\ lookahead w2 = []
          /\ env w2 = env w /\ log w2 = log w).
Proof.
  intros Hobj Hflag Hnx. pose proof (truthy_false_0 _ Hflag) as Hz.
  destruct w as [ob e lg]. simpl in *. subst ob. split.
  - intros mc r e1 e2 Hns Hfin.
    unfold run_ops, run_op, librdf_stream_set_map, librdf_stream_next,
      librdf_free_stream, librdf_free_statement, LIBRDF_FREE, emit,
      bind, load, store, call, ret, lookahead.
    simpl. rewrite Hflag. simpl. rewrite Hns. simpl.
    eexists _, _. split; [reflexivity|]. simpl. rewrite Hnx, Hfin. simpl.
    repeat split. by rewrite <- !app_assoc.
  - intros m2 mc2.
    unfold run_ops, run_op, librdf_stream_set_map, librdf_stream_end,
      librdf_stream_next, bind, load, store, ret, lookahead.
    simpl. rewrite Hflag, Hnx. simpl. rewrite Hflag. simpl.
    eexists. repeat split.
Qed.

(** X4. When the allocation fails, [librdf_new_stream] returns NULL: it
    writes no stream object and calls none of the callbacks, [finished]
    included, so the producer context stays with the caller. Of the
    operations only [librdf_stream_end] may be applied to the result. *)
Theorem new_stream_allocation_failure (c : option addr)
    (eos : end_of_stream_fn) (ns : next_statement_fn) (fin : finished_fn)
    (fuel : nat) (w : world) (e' : E) :
  LIBRDF_CALLOC (env w) = (false, e') ->
  let w1 := {| obj := obj w; env := e'; log := log w |} in
  librdf_new_stream c eos ns fin w = Ret (NULL, w1)
  /\ (stream <- librdf_new_stream c eos ns fin ;;
      librdf_stream_end fuel stream) w = Ret (1, w1)
  /\ (stream <- librdf_new_stream c eos ns fin ;;
      librdf_stream_next fuel stream) w = Undef
  /\ (stream <- librdf_new_stream c eos ns fin ;;
      librdf_free_stream stream) w = Undef.
Proof.
  intros H. unfold bind, librdf_new_stream. rewrite H. repeat split.
Qed.

(** ** Producers that keep the three-operation contract *)

Lemma load_Ret w s : obj w = Some s -> load PTR w = Ret (s, w).
Proof. intros H. unfold load. by rewrite H. Qed.

Lemma truthy_false v : truthy v = false -> v = 0.
Proof. unfold truthy. intros H. apply negb_false_iff in H. lia. Qed.

Arguments pulls : simpl never.

Lemma pulls_snoc (l : list event) (ev : event) :
  pulls (l ++ [ev]) = (pulls l + (if is_pull ev then 1 else 0))%nat.
Proof.
  unfold pulls. rewrite List.filter_app, length_app. simpl.
  destruct (is_pull ev); reflexivity.
Qed.

Lemma pulls_app (l1 l2 : list event) :
  pulls (l1 ++ l2) = (pulls l1 + pulls l2)%nat.
Proof. unfold pulls. by rewrite List.filter_app, length_app. Qed.

(** Every statement pulled is a call of [next_statement]. *)
Lemma pulled_length (l : list event) : (length (pulled l) <= pulls l)%nat.
Proof.
  unfold pulls, pulled.
  induction l as [|ev l IH]; [done|].
  destruct ev as [v|r|a r| |st|]; simpl; try exact IH.
  destruct r; simpl; [apply le_n_S|apply Nat.le_le_succ_r]; exact IH.
Qed.

(** With a map installed [end] answers 0 or 1. *)
Lemma end_with_map_answer fuel w s v w' :
  obj w = Some s ->
  is_Some (map s) ->
  librdf_stream_end fuel PTR w = Ret (v, w') ->
  v = 0 \/ v = 1.
Proof.
  intros Hobj [mf Hmap] H. unfold librdf_stream_end in H.
  apply bind_inv in H as (s0 & w2 & Hl & H).
  apply load_inv in Hl as (_ & Hobj0 & ->).
  assert (s0 = s) by congruence. subst s0.
  destruct (truthy (is_end_stream s)) eqn:Hflag.
  { inv_ret H. auto. }
  rewrite Hmap in H.
  destruct (next s) as [st|].
  { inv_ret H. auto. }
  apply bind_inv in H as (r0 & w3 & Hloop & H).
  unfold bind, store, load, ret in H. simpl in H.
  destruct r0 as [y|]; inversion H; subst; simpl; auto.
  left. by apply truthy_false.
Qed.

Lemma take_app_replicate {A} (x : A) : forall (l : list A) (k n : nat),
  (k <= n)%nat ->
  take k (l ++ replicate n x) = take k (l ++ replicate k x).
Proof.
  induction l as [|a l IH]; intros k n Hk; simpl.
  - rewrite !take_replicate. f_equal. lia.
  - destruct k as [|k]; [reflexivity|].
    change (a :: take k (l ++ replicate n x)
            = a :: take k (l ++ replicate (S k) x)).
    f_equal. rewrite (IH k n) by lia. rewrite (IH k (S k)) by lia.
    reflexivity.
Qed.

Lemma served_take : forall os P,
  served os P
  = take (length (served os P))
      ((Some <$> P) ++ replicate (length (served os P)) None).
Proof.
  induction os as [|o os IH]; intros P; [reflexivity|].
  destruct o as [| |mf' mc']; simpl; try apply IH.
  destruct P as [|x P]; simpl; f_equal.
  - exact (IH []).
  - change (None :: replicate (length (served os P)) None)
      with (replicate (S (length (served os P)))
              (@None librdf_statement)).
    rewrite take_app_replicate by lia. exact (IH P).
Qed.

Lemma served_length : forall os P,
  length (served os P) = length (List.filter is_next os).
Proof.
  induction os as [|o os IH]; intros P; [reflexivity|].
  destruct o; simpl; auto.
Qed.

Section Contract.

(** The producer context and callbacks, the environments in which the
    producer can be used, and the elements the producer still has to
    yield in such an environment. *)
Variable c : option addr.
Variable eos : end_of_stream_fn.
Variable ns : next_statement_fn.
Variable usable : E -> Prop.
Variable elements : E -> list librdf_statement.

(** [end_of_stream] consumes nothing and is true exactly at exhaustion. *)
Hypothesis eos_spec : forall e, usable e -> exists v e',
  eos c e = Ret (v, e')
  /\ usable e'
  /\ elements e' = elements e
  /\ (truthy v = true <-> elements e = []).

(** [next_statement] yields the next element, and NULL once and forever
    after exhaustion. *)
Hypothesis ns_spec : forall e, usable e -> exists e',
  ns c e = Ret (head (elements e), e')
  /\ usable e'
  /\ elements e' = tail (elements e).

(** The map, if one is installed: what it makes of a statement is a
    function [accept] of the statement, and it does not consume from the
    producer. *)
Variable m : option map_fn.
Variable mc : option addr.
Variable accept : librdf_statement -> option librdf_statement.

Hypothesis map_spec : forall mf, m = Some mf ->
  forall st e, usable e -> exists e',
    mf mc st e = Ret (accept st, e')
    /\ usable e'
    /\ elements e' = elements e.

(** The producer's elements as the consumer is to see them. *)
Definition accepted (l : list librdf_statement) : list librdf_statement :=
  match m with
  | None => l
  | Some _ => omap accept l
  end.

(** The stream object is one over this producer and this map. *)
Definition drives (s : librdf_stream) : Prop :=
  context s = c /\ end_of_stream s = eos /\ next_statement s = ns
  /\ map s = m /\ map_context s = mc.

(** What the consumer is still to be served: the buffered statement, if
    any, and then what the producer's remaining elements map to. *)
Definition pending (s : librdf_stream) (e : E) : list librdf_statement :=
  match m with
  | None => elements e
  | Some _ => option_list (next s) ++ omap accept (elements e)
  end.

(** The world is consistent with the list [P] of statements still to be
    served, and the fuel covers the producer's remaining elements. *)
Definition consistent (fuel : nat) (w : world) (P : list librdf_statement)
  : Prop :=
  exists s,
    obj w = Some s /\ drives s /\ usable (env w)
    /\ pending s (env w) = P
    /\ (truthy (is_end_stream s) = true -> P = [])
    /\ (length (elements (env w)) < fuel)%nat.

Lemma map_cases : m = None \/ exists mf, m = Some mf.
Proof. clear map_spec. destruct m; eauto. Qed.

Ltac finish :=
  repeat split; simpl; auto; try lia; try done; try congruence;
  try (by intros [?|?]).

(** The find-next loop over a contract-keeping producer: it returns the
    first accepted element, leaves the later ones with the producer, and
    pulls exactly the elements it consumes. *)
Lemma get_next_mapped_spec (mf : map_fn) : forall l fuel w s,
  obj w = Some s -> drives s -> m = Some mf ->
  usable (env w) ->
  elements (env w) = l ->
  (length l < fuel)%nat ->
  exists w',
    librdf_stream_get_next_mapped_statement fuel PTR w
      = Ret (head (omap accept l), w')
    /\ obj w' = Some s
    /\ usable (env w')
    /\ omap accept (elements (env w')) = tail (omap accept l)
    /\ (length (elements (env w')) <= length l)%nat
    /\ pulls (log w')
       = (pulls (log w) + (length l - length (elements (env w'))))%nat.
Proof.
  induction l as [|x l IH]; intros fuel w s Hobj Hdr Hm Hus Hel Hfuel;
    (destruct fuel as [|fuel]; [simpl in Hfuel; lia|]);
    destruct Hdr as (Hc & Heos & Hns & Hmap & Hmc);
    destruct (eos_spec (env w) Hus) as (v & e1 & Hv & Hus1 & Hel1 & Htr);
    simpl; rewrite (bind_Ret _ _ _ _ _ (load_Ret _ _ Hobj)), Heos, Hc;
    rewrite (bind_Ret _ _ _ _ _ (call_Ret _ CallEndOfStream _ _ _ Hv)).
  - assert (Ht : truthy v = true) by (by apply Htr; rewrite Hel).
    rewrite Ht. eexists. split; [reflexivity|]. simpl.
    rewrite pulls_snoc, Hel1, Hel. simpl. repeat split; auto; lia.
  - assert (Ht : truthy v = false).
    { destruct (truthy v) eqn:Hq; [|done]. rewrite Hel in Htr.
      by destruct Htr as [Htr _]; specialize (Htr eq_refl). }
    rewrite Ht, Hns.
    destruct (ns_spec e1 Hus1) as (e2 & Hn & Hus2 & Hel2).
    rewrite Hel1, Hel in Hn, Hel2. simpl in Hn, Hel2.
    erewrite bind_Ret; [|apply call_Ret; simpl; exact Hn].
    rewrite Hmap, Hm, Hmc.
    destruct (map_spec mf Hm x e2 Hus2) as (e3 & Hx & Hus3 & Hel3).
    rewrite Hel2 in Hel3.
    erewrite bind_Ret; [|apply call_Ret; simpl; exact Hx].
    destruct (accept x) as [y|] eqn:Hacc.
    + eexists. split; [reflexivity|]. simpl. rewrite Hel3.
      rewrite !pulls_snoc. simpl. repeat split; auto; lia.
    + edestruct (IH fuel
        {| obj := obj w; env := e3;
           log := ((log w ++ [CallEndOfStream v])
                     ++ [CallNextStatement (Some x)])
                    ++ [CallMap x None] |} s)
        as (w' & Hloop & Hobj' & Hus' & Hom & Hlen & Hp); simpl; auto.
      { repeat split; auto. }
      { simpl in Hfuel. lia. }
      exists w'. rewrite Hloop. split; [reflexivity|].
      simpl in Hp. rewrite !pulls_snoc in Hp. simpl in Hp.
      repeat split; auto; lia.
Qed.

(** [end] over a contract-keeping producer. *)
Lemma end_spec fuel w s :
  obj w = Some s -> drives s -> usable (env w) ->
  (length (elements (env w)) < fuel)%nat ->
  exists v w' s',
    librdf_stream_end fuel PTR w = Ret (v, w')
    /\ obj w' = Some s' /\ drives s' /\ usable (env w')
    /\ pending s' (env w') = pending s (env w)
    /\ truthy (is_end_stream s') = truthy v
    /\ (truthy v = true <->
        truthy (is_end_stream s) = true \/ pending s (env w) = [])
    /\ (truthy v = false ->
        is_end_stream s' = 0 /\ (is_Some m -> is_Some (next s')))
    /\ (length (elements (env w')) <= length (elements (env w)))%nat
    /\ pulls (log w')
       = (pulls (log w)
          + (length (elements (env w)) - length (elements (env w'))))%nat
    /\ (m = None -> elements (env w') = elements (env w)).
Proof.
  intros Hobj Hdr Hus Hfuel.
  pose proof Hdr as (Hc & Heos & Hns & Hmap & Hmc).
  unfold librdf_stream_end. rewrite (bind_Ret _ _ _ _ _ (load_Ret _ _ Hobj)).
  destruct (truthy (is_end_stream s)) eqn:Hflag.
  { exists 1, w, s. unfold ret. finish. }
  pose proof (truthy_false _ Hflag) as Hz.
  rewrite Hmap. unfold pending.
  destruct map_cases as [Hm|[mf Hm]]; rewrite Hm.
  all: swap 1 2.
  - destruct (next s) as [st|] eqn:Hnx.
    + exists 0, w, s. unfold ret. rewrite Hnx. simpl. finish.
    + destruct (get_next_mapped_spec mf (elements (env w)) fuel w s)
        as (w' & Hloop & Hobj' & Hus' & Hom & Hlen & Hp); auto.
      rewrite (bind_Ret _ _ _ _ _ Hloop). simpl.
      destruct (omap accept (elements (env w))) as [|y Q] eqn:HQ; simpl in *.
      * exists 1, {| obj := Some (set_is_end_stream 1 (set_next None s));
                     env := env w'; log := log w' |},
          (set_is_end_stream 1 (set_next None s)).
        unfold bind, store, load, ret. simpl. finish.
      * exists 0, {| obj := Some (set_next (Some y) s);
                     env := env w'; log := log w' |},
          (set_next (Some y) s).
        unfold bind, store, load, ret. simpl. rewrite Hom, Hz. finish.
  - destruct (eos_spec (env w) Hus) as (v & e1 & Hv & Hus1 & Hel1 & Htr).
    rewrite Heos, Hc.
    rewrite (bind_Ret _ _ _ _ _ (call_Ret _ CallEndOfStream _ _ _ Hv)).
    exists v, {| obj := Some (set_is_end_stream v s); env := e1;
                 log := log w ++ [CallEndOfStream v] |},
      (set_is_end_stream v s).
    unfold bind, store, ret. simpl. rewrite pulls_snoc, Hel1. simpl.
    repeat split; auto; try lia; try congruence.
    + intros H. right. by apply Htr.
    + intros [H|H]; [discriminate|by apply Htr].
    + by apply truthy_false.
    + intros [? ?]; discriminate.
Qed.

(** A second [end] right after a first one. *)
Lemma end_again fuel w s :
  obj w = Some s -> drives s -> usable (env w) ->
  truthy (is_end_stream s) = true
  \/ (is_end_stream s = 0 /\ pending s (env w) <> []
      /\ (is_Some m -> is_Some (next s))) ->
  exists v w',
    librdf_stream_end fuel PTR w = Ret (v, w')
    /\ obj w' = obj w
    /\ usable (env w')
    /\ elements (env w') = elements (env w)
    /\ pulls (log w') = pulls (log w)
    /\ truthy v = truthy (is_end_stream s).
Proof.
  intros Hobj Hdr Hus Hst.
  pose proof Hdr as (Hc & Heos & Hns & Hmap & Hmc).
  unfold librdf_stream_end. rewrite (bind_Ret _ _ _ _ _ (load_Ret _ _ Hobj)).
  destruct Hst as [Hflag|(Hz & Hpend & Hbuf)].
  { rewrite Hflag. exists 1, w. unfold ret. finish. }
  rewrite Hz. simpl. rewrite Hmap. unfold pending in Hpend.
  destruct map_cases as [Hm|[mf Hm]]; rewrite Hm in Hpend, Hbuf |- *.
  all: swap 1 2.
  - destruct Hbuf as [st Hnx]; [by eexists|]. rewrite Hnx.
    exists 0, w. unfold ret. finish.
  - destruct (eos_spec (env w) Hus) as (v & e1 & Hv & Hus1 & Hel1 & Htr).
    rewrite Heos, Hc.
    rewrite (bind_Ret _ _ _ _ _ (call_Ret _ CallEndOfStream _ _ _ Hv)).
    assert (Hv0 : v = 0).
    { apply truthy_false. destruct (truthy v); [|done].
      by destruct Hpend; apply Htr. }
    subst v. eexists 0, _. unfold bind, store, ret. simpl.
    split; [reflexivity|]. simpl. rewrite pulls_snoc. simpl.
    repeat split; auto; try lia.
    rewrite Hobj. f_equal. destruct s; simpl in *; by subst.
Qed.

(** [next] over a contract-keeping producer, from a state in which a
    set flag means that nothing is pending. *)
Lemma next_spec fuel w s :
  obj w = Some s -> drives s -> usable (env w) ->
  (truthy (is_end_stream s) = true -> pending s (env w) = []) ->
  (length (elements (env w)) < fuel)%nat ->
  exists w' s',
    librdf_stream_next fuel PTR w = Ret (head (pending s (env w)), w')
    /\ obj w' = Some s' /\ drives s' /\ usable (env w')
    /\ pending s' (env w') = tail (pending s (env w))
    /\ (truthy (is_end_stream s') = true -> pending s' (env w') = [])
    /\ (length (elements (env w')) <= length (elements (env w)))%nat.
Proof.
  intros Hobj Hdr Hus Hcons Hfuel.
  pose proof Hdr as (Hc & Heos & Hns & Hmap & Hmc).
  unfold librdf_stream_next. rewrite (bind_Ret _ _ _ _ _ (load_Ret _ _ Hobj)).
  destruct (truthy (is_end_stream s)) eqn:Hflag.
  { rewrite Hcons by done. exists w, s. unfold ret. simpl. finish. }
  rewrite Hmap. unfold pending in *.
  destruct map_cases as [Hm|[mf Hm]]; rewrite Hm in Hcons |- *.
  - destruct (ns_spec (env w) Hus) as (e' & Hn & Hus' & Hel).
    rewrite Hns, Hc.
    rewrite (call_Ret _ CallNextStatement _ _ _ Hn).
    eexists _, s. split; [reflexivity|]. simpl. rewrite Hel.
    finish. destruct (elements (env w)); simpl; lia.
  - destruct (next s) as [st|] eqn:Hnx.
    + exists {| obj := Some (set_next None s); env := env w; log := log w |},
        (set_next None s).
      unfold bind, store, ret. simpl. rewrite Hflag. finish.
    + destruct (get_next_mapped_spec mf (elements (env w)) fuel w s)
        as (w' & Hloop & Hobj' & Hus' & Hom & Hlen & Hp); auto.
      rewrite (bind_Ret _ _ _ _ _ Hloop). simpl.
      destruct (omap accept (elements (env w))) as [|y Q] eqn:HQ; simpl in *.
      * exists {| obj := Some (set_is_end_stream 1 s);
                  env := env w'; log := log w' |}, (set_is_end_stream 1 s).
        unfold bind, store, ret. simpl. rewrite Hnx. finish.
      * exists w', s. unfold bind, ret. rewrite Hnx, Hflag. finish.
Qed.

(** A run of [end] and [next] calls refines the forward iterator. *)
Lemma run_ops_refines fuel os : forall w P,
  forallb plain os = true ->
  consistent fuel w P ->
  exists rs w',
    run_ops fuel PTR os w = Ret (rs, w')
    /\ nexts rs = served os P
    /\ ends rs = reported os P.
Proof.
  induction os as [|o os IH]; intros w P Hplain Hcons.
  { exists [], w. auto. }
  simpl in Hplain. apply andb_true_iff in Hplain as [Ho Hos].
  destruct Hcons as (s & Hobj & Hdr & Hus & HP & Hflag & Hfuel).
  destruct o as [| |mf' mc']; [| |discriminate]; simpl.
  - destruct (end_spec fuel w s Hobj Hdr Hus Hfuel)
      as (v & w1 & s1 & Hend & Hobj1 & Hdr1 & Hus1 & Hp1 & Hf1 & Hv & _
          & Hlen & _).
    destruct (IH w1 P Hos) as (rs & w' & Hrun & Hn & He).
    { exists s1. rewrite Hp1, Hf1.
      split; [done|]. split; [done|]. split; [done|]. split; [done|].
      split; [|lia].
      intros Ht. apply Hv in Ht as [Ht|Ht]; [auto|congruence]. }
    exists (REnd v :: rs), w'.
    rewrite (bind_Ret _ _ _ _ _ (bind_Ret _ _ _ _ _ Hend)).
    unfold ret at 1. rewrite (bind_Ret _ _ _ _ _ Hrun).
    split; [reflexivity|]. split; [exact Hn|].
    change (ends (REnd v :: rs)) with (truthy v :: ends rs).
    rewrite He. f_equal.
    destruct Hv as [Hv1 Hv2]. destruct P as [|p P].
    + apply Hv2. by right.
    + destruct (truthy v) eqn:Hq; [|done].
      destruct (Hv1 eq_refl) as [Hq'|Hq']; [apply Hflag in Hq'|]; congruence.
  - destruct (next_spec fuel w s Hobj Hdr Hus) as
      (w1 & s1 & Hnext & Hobj1 & Hdr1 & Hus1 & Hp1 & Hf1 & Hlen); auto.
    { intros Ht. rewrite HP. auto. }
    rewrite HP in *.
    destruct (IH w1 (tail P) Hos) as (rs & w' & Hrun & Hn & He).
    { exists s1.
      split; [done|]. split; [done|]. split; [done|]. split; [done|].
      split; [|lia].
      intros Ht. rewrite <- Hp1. auto. }
    exists (RNext (head P) :: rs), w'.
    rewrite (bind_Ret _ _ _ _ _ (bind_Ret _ _ _ _ _ Hnext)).
    unfold ret at 1. rewrite (bind_Ret _ _ _ _ _ Hrun).
    split; [reflexivity|].
    change (nexts (RNext (head P) :: rs)) with (head P :: nexts rs).
    rewrite Hn. auto.
Qed.

(** C1. Over a producer that keeps the contract, a stream in its
    initial state (flag clear, nothing buffered), with or without a map,
    answers every interleaving of [end] and [next] calls, and the [next]
    calls return, one after the other, what the map makes of the
    producer's elements it accepts (the elements themselves when no map
    is installed), in the producer's order, each once, and NULL from then
    on: the results of the [k] calls of [next] are the first [k] entries
    of the accepted elements followed by NULLs. Each [end] call answers
    true exactly when all of them have been returned. *)
Theorem stream_serves_accepted_elements (fuel : nat) (os : list op)
    (w : world) (s : librdf_stream) :
  obj w = Some s ->
  drives s ->
  usable (env w) ->
  is_end_stream s = 0 ->
  next s = None ->
  forallb plain os = true ->
  (length (elements (env w)) < fuel)%nat ->
  exists rs w',
    run_ops fuel PTR os w = Ret (rs, w')
    /\ length (nexts rs) = length (List.filter is_next os)
    /\ nexts rs
       = take (length (nexts rs))
           ((Some <$> accepted (elements (env w)))
              ++ replicate (length (nexts rs)) None)
    /\ ends rs = reported os (accepted (elements (env w))).
Proof.
  intros Hobj Hdr Hus Hflag Hnx Hplain Hfuel.
  destruct (run_ops_refines fuel os w (accepted (elements (env w))) Hplain)
    as (rs & w' & Hrun & Hn & He).
  { exists s. split; [done|]. split; [done|]. split; [done|].
    split; [|split; [|done]].
    - unfold pending, accepted. rewrite Hnx.
      by destruct map_cases as [Hm|[mf Hm]]; rewrite Hm.
    - rewrite Hflag. discriminate. }
  exists rs, w'. split; [done|]. rewrite Hn. split; [|split; [|done]].
  - apply served_length.
  - apply served_take.
Qed.

(** The find-next loop over the elements [pre ++ post], the map
    discarding all of [pre] and [post] being empty or starting with an
    element the map accepts: what it returns, what it leaves with the
    producer, and the calls it makes. *)
Lemma get_next_mapped_prefix (mf : map_fn) : forall pre post fuel w s,
  obj w = Some s -> drives s -> m = Some mf ->
  usable (env w) ->
  Forall (fun z => accept z = None) pre ->
  elements (env w) = pre ++ post ->
  (length pre < fuel)%nat ->
  match post with [] => True | x :: _ => is_Some (accept x) end ->
  exists w' evs,
    librdf_stream_get_next_mapped_statement fuel PTR w
      = Ret (match post with [] => None | x :: _ => accept x end, w')
    /\ obj w' = Some s
    /\ elements (env w') = tail post
    /\ log w' = log w ++ evs
    /\ pulled evs = pre ++ option_list (head post)
    /\ pulls evs = length (pre ++ option_list (head post)).
Proof.
  induction pre as [|z pre IH];
    intros post fuel w s Hobj Hdr Hm Hus Hrej Hel Hfuel Hpost;
    (destruct fuel as [|fuel]; [simpl in Hfuel; lia|]); simpl in Hel;
    pose proof Hdr as (Hc & Heos & Hns & Hmap & Hmc);
    destruct (eos_spec (env w) Hus) as (v & e1 & Hv & Hus1 & Hel1 & Htr);
    simpl; rewrite (bind_Ret _ _ _ _ _ (load_Ret _ _ Hobj)), Heos, Hc;
    rewrite (bind_Ret _ _ _ _ _ (call_Ret _ CallEndOfStream _ _ _ Hv)).
  - destruct post as [|x post'].
    + assert (Ht : truthy v = true) by (by apply Htr).
      rewrite Ht. eexists _, [CallEndOfStream v].
      split; [reflexivity|]. simpl. repeat split; auto; congruence.
    + assert (Ht : truthy v = false).
      { destruct (truthy v) eqn:Hq; [|done]. rewrite Hel in Htr.
        by destruct Htr as [Htr _]; specialize (Htr eq_refl). }
      rewrite Ht, Hns.
      destruct (ns_spec e1 Hus1) as (e2 & Hn & Hus2 & Hel2).
      rewrite Hel1, Hel in Hn, Hel2. simpl in Hn, Hel2.
      erewrite bind_Ret; [|apply call_Ret; simpl; exact Hn].
      rewrite Hmap, Hm, Hmc.
      destruct (map_spec mf Hm x e2 Hus2) as (e3 & Hx & Hus3 & Hel3).
      rewrite Hel2 in Hel3.
      erewrite bind_Ret; [|apply call_Ret; simpl; exact Hx].
      destruct Hpost as [y Hacc]. rewrite Hacc.
      eexists _, [CallEndOfStream v; CallNextStatement (Some x);
                  CallMap x (Some y)].
      split; [reflexivity|]. simpl. rewrite <- !app_assoc.
      repeat split; auto.
  - inversion Hrej as [|? ? Hz Hrej']; subst.
    assert (Ht : truthy v = false).
    { destruct (truthy v) eqn:Hq; [|done]. rewrite Hel in Htr.
      by destruct Htr as [Htr _]; specialize (Htr eq_refl). }
    rewrite Ht, Hns.
    destruct (ns_spec e1 Hus1) as (e2 & Hn & Hus2 & Hel2).
    rewrite Hel1, Hel in Hn, Hel2. simpl in Hn, Hel2.
    erewrite bind_Ret; [|apply call_Ret; simpl; exact Hn].
    rewrite Hmap, Hm, Hmc.
    destruct (map_spec mf Hm z e2 Hus2) as (e3 & Hx & Hus3 & Hel3).
    rewrite Hel2 in Hel3.
    erewrite bind_Ret; [|apply call_Ret; simpl; exact Hx].
    rewrite Hz.
    edestruct (IH post fuel
      {| obj := obj w; env := e3;
         log := ((log w ++ [CallEndOfStream v])
                   ++ [CallNextStatement (Some z)])
                  ++ [CallMap z None] |} s)
      as (w' & evs & Hloop & Hobj' & Hel' & Hlog & Hpd & Hpc);
      simpl; auto.
    { simpl in Hfuel. lia. }
    exists w',
      ([CallEndOfStream v; CallNextStatement (Some z); CallMap z None]
         ++ evs).
    rewrite Hloop. split; [reflexivity|].
    simpl in Hlog. rewrite Hlog, <- !app_assoc. simpl.
    change (pulls (CallEndOfStream v :: CallNextStatement (Some z)
                     :: CallMap z None :: evs))
      with (S (pulls evs)).
    rewrite Hpd, Hpc. repeat split; auto.
Qed.

(** C4, as the code has it. Over a producer that keeps the contract,
    two calls of [end] in a row both return. The second call answers 0
    after 0 and 1 after any other answer, and with a map installed the
    two answers are equal; it pulls nothing from the producer, consumes
    none of its elements and leaves the stream object as the first call
    left it. The first call pulls nothing when no map is installed, and
    changes nothing at all when the flag is set or a statement is
    buffered under a map. With a map installed, the flag clear and the
    slot empty, and the remaining elements being [pre ++ post] with the
    map discarding all of [pre]: when [post] is empty it pulls exactly
    [pre], answers 1 and buffers nothing; when [post] starts with an
    element [x] the map accepts it pulls exactly [pre] and [x], answers
    0, buffers what the map made of [x] and leaves the elements behind
    [x] with the producer. *)
Theorem end_twice_second_is_quiet (fuel : nat) (w : world)
    (s : librdf_stream) :
  obj w = Some s ->
  drives s ->
  usable (env w) ->
  (length (elements (env w)) < fuel)%nat ->
  exists v1 w1 v2 w2 evs1 evs2,
    librdf_stream_end fuel PTR w = Ret (v1, w1)
    /\ librdf_stream_end fuel PTR w1 = Ret (v2, w2)
    /\ truthy v2 = truthy v1
    /\ (v1 = 0 -> v2 = 0)
    /\ (v1 <> 0 -> v2 = 1)
    /\ (is_Some m -> v2 = v1)
    /\ obj w2 = obj w1
    /\ elements (env w2) = elements (env w1)
    /\ log w2 = log w1 ++ evs2
    /\ pulled evs2 = []
    /\ pulls (log w2) = pulls (log w1)
    /\ log w1 = log w ++ evs1
    /\ pulls (log w1)
       = (pulls (log w)
          + (length (elements (env w)) - length (elements (env w1))))%nat
    /\ (m = None ->
        pulled evs1 = []
        /\ pulls (log w1) = pulls (log w)
        /\ elements (env w1) = elements (env w))
    /\ (truthy (is_end_stream s) = true
        \/ (is_Some m /\ is_Some (next s)) ->
        w1 = w)
    /\ (is_Some m ->
        truthy (is_end_stream s) = false ->
        next s = None ->
        forall pre post,
          Forall (fun z => accept z = None) pre ->
          elements (env w) = pre ++ post ->
          (post = [] ->
           v1 = 1
           /\ pulled evs1 = pre
           /\ pulls (log w1) = (pulls (log w) + length pre)%nat
           /\ elements (env w1) = []
           /\ lookahead w1 = [])
          /\ (forall x post' y,
                post = x :: post' ->
                accept x = Some y ->
                v1 = 0
                /\ pulled evs1 = pre ++ [x]
                /\ pulls (log w1) = (pulls (log w) + length pre + 1)%nat
                /\ elements (env w1) = post'
                /\ lookahead w1 = [y])).
Proof.
  intros Hobj Hdr Hus Hfuel.
  destruct (end_spec fuel w s Hobj Hdr Hus Hfuel)
    as (v1 & w1 & s1 & Hend & Hobj1 & Hdr1 & Hus1 & Hp1 & Hf1 & Hv & Hfalse
        & Hlen & Hpulls & Hnomap).
  destruct (end_again fuel w1 s1 Hobj1 Hdr1 Hus1)
    as (v2 & w2 & Hend2 & Ho & _ & He & Hp & Ht).
  { destruct (truthy v1) eqn:Hq; [left; congruence|right].
    destruct (Hfalse eq_refl) as [Hz Hbuf]. split; [done|]. split; [|done].
    rewrite Hp1. intros Hnil. destruct Hv as [_ Hv].
    specialize (Hv (or_intror Hnil)). discriminate. }
  pose proof Hdr as (Hc & Heos & Hns & Hmap & Hmc).
  assert (Hrun1 : run_op fuel PTR OpEnd w = Ret (REnd v1, w1))
    by (simpl; by rewrite (bind_Ret _ _ _ _ _ Hend)).
  assert (Hrun2 : run_op fuel PTR OpEnd w1 = Ret (REnd v2, w2))
    by (simpl; by rewrite (bind_Ret _ _ _ _ _ Hend2)).
  destruct (run_op_trace fuel OpEnd w s _ _ Hobj eq_refl Hrun1)
    as (s1' & evs1 & _ & Hlog1 & _ & _ & _ & _ & Hnone1).
  destruct (run_op_trace fuel OpEnd w1 s1 _ _ Hobj1 eq_refl Hrun2)
    as (s2' & evs2 & _ & Hlog2 & _ & _ & _ & _ & _).
  assert (Hv2 : truthy v2 = truthy v1) by congruence.
  assert (Hq2 : pulled evs2 = []).
  { apply length_zero_iff_nil. pose proof (pulled_length evs2) as Hle.
    rewrite Hlog2, pulls_app in Hp. lia. }
  assert (Hz : v1 = 0 -> v2 = 0).
  { intros H0. apply truthy_false. by rewrite Hv2, H0. }
  assert (Hnz : v1 <> 0 -> v2 = 1).
  { intros Hne.
    assert (Htv : truthy v1 = true)
      by (unfold truthy; by apply negb_true_iff, Z.eqb_neq).
    pose proof Hend2 as Hx. unfold librdf_stream_end in Hx.
    rewrite (bind_Ret _ _ _ _ _ (load_Ret _ _ Hobj1)), Hf1, Htv in Hx.
    unfold ret in Hx. congruence. }
  exists v1, w1, v2, w2, evs1, evs2.
  split; [done|]. split; [done|]. split; [done|]. split; [done|].
  split; [done|]. split.
  { intros Hsome.
    destruct (end_with_map_answer fuel w s v1 w1 Hobj) as [H0|H1];
      [by rewrite Hmap|done| |].
    - rewrite (Hz H0). done.
    - rewrite Hnz; [done|lia]. }
  split; [done|]. split; [done|]. split; [done|]. split; [done|].
  split; [done|]. split; [done|]. split; [done|]. split.
  { intros Hm. split; [|split; [|by apply Hnomap]].
    - destruct Hnone1 as (_ & Hpd & _); [by rewrite Hmap|]. exact Hpd.
    - rewrite Hpulls, (Hnomap Hm). lia. }
  split.
  { intros Hcase. pose proof Hend as Hx. unfold librdf_stream_end in Hx.
    rewrite (bind_Ret _ _ _ _ _ (load_Ret _ _ Hobj)) in Hx.
    destruct (truthy (is_end_stream s)) eqn:Hflag.
    { unfold ret in Hx. congruence. }
    destruct Hcase as [?|[[mf Hm] [st Hnx]]]; [discriminate|].
    rewrite Hmap, Hm, Hnx in Hx. unfold ret in Hx. congruence. }
  intros [mf Hm] Hflag Hnx pre post Hrej Hel.
  assert (Hloop :
    match post with [] => True | x :: _ => is_Some (accept x) end ->
    v1 = match post with [] => 1 | _ :: _ => 0 end
    /\ pulled evs1 = pre ++ option_list (head post)
    /\ pulls (log w1)
       = (pulls (log w) + length (pre ++ option_list (head post)))%nat
    /\ elements (env w1) = tail post
    /\ lookahead w1
       = option_list (match post with [] => None | x :: _ => accept x end)).
  { intros Hpost.
    destruct (get_next_mapped_prefix mf pre post fuel w s Hobj Hdr Hm Hus
                Hrej Hel)
      as (w' & evs & Hl & Hobj' & Hel' & Hlog' & Hpd & Hpc); [|done|].
    { rewrite Hel, length_app in Hfuel. lia. }
    pose proof Hend as Hx. unfold librdf_stream_end in Hx.
    rewrite (bind_Ret _ _ _ _ _ (load_Ret _ _ Hobj)) in Hx.
    rewrite Hflag, Hmap, Hm, Hnx in Hx.
    rewrite (bind_Ret _ _ _ _ _ Hl) in Hx.
    assert (Hw1 : log w1 = log w' /\ env w1 = env w'
                  /\ v1 = match post with [] => 1 | _ :: _ => 0 end
                  /\ lookahead w1
                     = option_list (match post with
                                    | [] => None
                                    | x :: _ => accept x
                                    end)).
    { unfold lookahead. destruct post as [|x post'].
      - unfold bind, store, load, ret in Hx. simpl in Hx.
        inversion Hx. by subst.
      - destruct Hpost as [y Hacc]. rewrite Hacc in Hx |- *.
        unfold bind, store, load, ret in Hx. simpl in Hx.
        inversion Hx. subst. simpl. repeat split.
        by apply truthy_false. }
    destruct Hw1 as (Hlw & Hew & Hv1 & Hla).
    assert (evs1 = evs).
    { apply (app_inv_head (log w)). congruence. }
    subst evs1. rewrite Hew, Hel', Hlw, Hlog', pulls_app, Hpc. done. }
  split.
  - intros ->. destruct (Hloop I) as (H1 & H2 & H3 & H4 & H5).
    simpl in *. rewrite app_nil_r in *. done.
  - intros x post' y -> Hacc.
    destruct Hloop as (H1 & H2 & H3 & H4 & H5); [by exists y|].
    simpl in *. rewrite Hacc in H5. rewrite length_app in H3. simpl in *.
    repeat split; auto. lia.
Qed.

(** *** The find-next loop, element by element *)

(** One iteration over a producer that has an element left. *)
Lemma get_next_mapped_iteration (mf : map_fn) fuel w s x l :
  obj w = Some s -> drives s -> m = Some mf ->
  usable (env w) ->
  elements (env w) = x :: l ->
  exists w2,
    obj w2 = Some s /\ usable (env w2) /\ elements (env w2) = l
    /\ pulls (log w2) = S (pulls (log w))
    /\ librdf_stream_get_next_mapped_statement (S fuel) PTR w
       = match accept x with
         | Some y => Ret (Some y, w2)
         | None => librdf_stream_get_next_mapped_statement fuel PTR w2
         end.
Proof.
  intros Hobj (Hc & Heos & Hns & Hmap & Hmc) Hm Hus Hel.
  destruct (eos_spec (env w) Hus) as (v & e1 & Hv & Hus1 & Hel1 & Htr).
  assert (Ht : truthy v = false).
  { destruct (truthy v) eqn:Hq; [|done]. rewrite Hel in Htr.
    by destruct Htr as [Htr _]; specialize (Htr eq_refl). }
  destruct (ns_spec e1 Hus1) as (e2 & Hn & Hus2 & Hel2).
  rewrite Hel1, Hel in Hn, Hel2. simpl in Hn, Hel2.
  destruct (map_spec mf Hm x e2 Hus2) as (e3 & Hx & Hus3 & Hel3).
  rewrite Hel2 in Hel3.
  exists {| obj := obj w; env := e3;
            log := ((log w ++ [CallEndOfStream v])
                      ++ [CallNextStatement (Some x)])
                     ++ [CallMap x (accept x)] |}.
  simpl. rewrite !pulls_snoc. simpl.
  split; [done|]. split; [done|]. split; [done|]. split; [lia|].
  rewrite (bind_Ret _ _ _ _ _ (load_Ret _ _ Hobj)), Heos, Hc.
  rewrite (bind_Ret _ _ _ _ _ (call_Ret _ CallEndOfStream _ _ _ Hv)).
  rewrite Ht, Hns.
  erewrite bind_Ret; [|apply call_Ret; simpl; exact Hn].
  rewrite Hmap, Hm, Hmc.
  erewrite bind_Ret; [|apply call_Ret; simpl; exact Hx].
  by destruct (accept x).
Qed.

(** The iteration over an exhausted producer. *)
Lemma get_next_mapped_exhausted fuel w s :
  obj w = Some s -> drives s ->
  usable (env w) ->
  elements (env w) = [] ->
  exists w2,
    librdf_stream_get_next_mapped_statement (S fuel) PTR w = Ret (None, w2)
    /\ obj w2 = Some s /\ usable (env w2) /\ elements (env w2) = []
    /\ pulls (log w2) = pulls (log w).
Proof.
  intros Hobj (Hc & Heos & Hns & Hmap & Hmc) Hus Hel.
  destruct (eos_spec (env w) Hus) as (v & e1 & Hv & Hus1 & Hel1 & Htr).
  assert (Ht : truthy v = true) by (by apply Htr).
  simpl. rewrite (bind_Ret _ _ _ _ _ (load_Ret _ _ Hobj)), Heos, Hc.
  rewrite (bind_Ret _ _ _ _ _ (call_Ret _ CallEndOfStream _ _ _ Hv)).
  rewrite Ht. eexists. split; [reflexivity|]. simpl.
  rewrite pulls_snoc. simpl. repeat split; auto; try congruence; lia.
Qed.

(** X2. The find-next loop over a contract-keeping producer whose
    remaining elements are [pre ++ post], the map discarding all of
    [pre]. When [post] starts with an element the map accepts, the loop
    returns what the map makes of it, leaves the elements after it with
    the producer and has pulled [pre] and that element. When [post] is
    empty the loop returns NULL with the producer exhausted, having
    pulled [pre]. Fuel above the length of [pre] is enough. *)
Theorem get_next_mapped_skips_discarded (mf : map_fn) :
  forall (pre post : list librdf_statement) (fuel : nat) (w : world)
         (s : librdf_stream),
    obj w = Some s -> drives s -> m = Some mf ->
    usable (env w) ->
    Forall (fun z => accept z = None) pre ->
    elements (env w) = pre ++ post ->
    (length pre < fuel)%nat ->
    (forall x post' y,
        post = x :: post' -> accept x = Some y ->
        exists w',
          librdf_stream_get_next_mapped_statement fuel PTR w
            = Ret (Some y, w')
          /\ obj w' = Some s
          /\ elements (env w') = post'
          /\ pulls (log w') = (pulls (log w) + length pre + 1)%nat)
    /\ (post = [] ->
        exists w',
          librdf_stream_get_next_mapped_statement fuel PTR w
            = Ret (None, w')
          /\ obj w' = Some s
          /\ elements (env w') = []
          /\ pulls (log w') = (pulls (log w) + length pre)%nat).
Proof.
  induction pre as [|z pre IH];
    intros post fuel w s Hobj Hdr Hm Hus Hrej Hel Hfuel;
    (destruct fuel as [|fuel]; [simpl in Hfuel; lia|]); simpl in Hel.
  - split.
    + intros x post' y -> Hacc.
      destruct (get_next_mapped_iteration mf fuel w s x post')
        as (w2 & Hobj2 & Hus2 & Hel2 & Hp2 & Hloop); auto.
      rewrite Hacc in Hloop. exists w2. simpl length.
      repeat split; auto. lia.
    + intros ->.
      destruct (get_next_mapped_exhausted fuel w s)
        as (w2 & Hloop & Hobj2 & Hus2 & Hel2 & Hp2); auto.
      exists w2. simpl length. repeat split; auto. lia.
  - inversion Hrej as [|? ? Hz Hrej']; subst.
    destruct (get_next_mapped_iteration mf fuel w s z (pre ++ post))
      as (w2 & Hobj2 & Hus2 & Hel2 & Hp2 & Hloop); auto.
    rewrite Hz in Hloop.
    destruct (IH post fuel w2 s) as [IHfound IHnone]; auto.
    { simpl in Hfuel. lia. }
    split.
    + intros x post' y Hpost Hacc.
      destruct (IHfound x post' y Hpost Hacc)
        as (w' & Hl & Ho & He & Hp).
      exists w'. rewrite Hloop. simpl length. repeat split; auto. lia.
    + intros Hpost.
      destruct (IHnone Hpost) as (w' & Hl & Ho & He & Hp).
      exists w'. rewrite Hloop. simpl length. repeat split; auto. lia.
Qed.

(** *** A whole session *)

(** A run of [end] and [next] calls leaves a consistent world. *)
Lemma run_ops_refines_final fuel os : forall w P,
  forallb plain os = true ->
  consistent fuel w P ->
  exists rs w' P',
    run_ops fuel PTR os w = Ret (rs, w')
    /\ nexts rs = served os P
    /\ ends rs = reported os P
    /\ consistent fuel w' P'.
Proof.
  induction os as [|o os IH]; intros w P Hplain Hcons.
  { exists [], w, P. auto. }
  simpl in Hplain. apply andb_true_iff in Hplain as [Ho Hos].
  destruct Hcons as (s & Hobj & Hdr & Hus & HP & Hflag & Hfuel).
  destruct o as [| |mf' mc']; [| |discriminate]; simpl.
  - destruct (end_spec fuel w s Hobj Hdr Hus Hfuel)
      as (v & w1 & s1 & Hend & Hobj1 & Hdr1 & Hus1 & Hp1 & Hf1 & Hv & _
          & Hlen & _).
    destruct (IH w1 P Hos) as (rs & w' & P' & Hrun & Hn & He & Hc').
    { exists s1. rewrite Hp1, Hf1.
      split; [done|]. split; [done|]. split; [done|]. split; [done|].
      split; [|lia].
      intros Ht. apply Hv in Ht as [Ht|Ht]; [auto|congruence]. }
    exists (REnd v :: rs), w', P'.
    rewrite (bind_Ret _ _ _ _ _ (bind_Ret _ _ _ _ _ Hend)).
    unfold ret at 1. rewrite (bind_Ret _ _ _ _ _ Hrun).
    split; [reflexivity|]. split; [exact Hn|]. split; [|exact Hc'].
    change (ends (REnd v :: rs)) with (truthy v :: ends rs).
    rewrite He. f_equal.
    destruct Hv as [Hv1 Hv2]. destruct P as [|p P].
    + apply Hv2. by right.
    + destruct (truthy v) eqn:Hq; [|done].
      destruct (Hv1 eq_refl) as [Hq'|Hq']; [apply Hflag in Hq'|]; congruence.
  - destruct (next_spec fuel w s Hobj Hdr Hus) as
      (w1 & s1 & Hnext & Hobj1 & Hdr1 & Hus1 & Hp1 & Hf1 & Hlen); auto.
    { intros Ht. rewrite HP. auto. }
    rewrite HP in *.
    destruct (IH w1 (tail P) Hos) as (rs & w' & P' & Hrun & Hn & He & Hc').
    { exists s1.
      split; [done|]. split; [done|]. split; [done|]. split; [done|].
      split; [|lia].
      intros Ht. rewrite <- Hp1. auto. }
    exists (RNext (head P) :: rs), w', P'.
    rewrite (bind_Ret _ _ _ _ _ (bind_Ret _ _ _ _ _ Hnext)).
    unfold ret at 1. rewrite (bind_Ret _ _ _ _ _ Hrun).
    split; [reflexivity|].
    change (nexts (RNext (head P) :: rs)) with (head P :: nexts rs).
    rewrite Hn. auto.
Qed.

(** The statements released, in order. *)
Definition released (l : list event) : list librdf_statement :=
  omap (fun ev => match ev with FreeStatement st => Some st | _ => None end) l.

Lemma free_stream_Ret (w : world) (s : librdf_stream) (e' : E) :
  obj w = Some s ->
  finished s (context s) (env w) = Ret (tt, e') ->
  librdf_free_stream PTR w
  = Ret (tt, {| obj := None; env := e';
                log := log w ++ [CallFinished]
                         ++ List.map FreeStatement (option_list (next s))
                         ++ [FreeStream] |}).
Proof.
  intros Hobj Hfin. destruct w as [ob e l]; simpl in *; subst ob.
  unfold librdf_free_stream, librdf_free_statement, LIBRDF_FREE, emit,
    bind, load, call, ret.
  simpl. rewrite Hfin. simpl.
  destruct (next s); simpl; by rewrite <- !app_assoc.
Qed.

(** A session: create the stream, install the map if there is one, make
    the calls, destroy the stream. *)
Definition session (fin : finished_fn) (fuel : nat) (os : list op)
  : M (list result) :=
  stream <- librdf_new_stream c eos ns fin ;;
  match m with
  | Some _ => librdf_stream_set_map stream m mc
  | None => ret tt
  end ;;;
  rs <- run_ops fuel stream os ;;
  librdf_free_stream stream ;;;
  ret rs.

(** X3. A whole session over a contract-keeping producer, the
    allocation succeeding: it returns; its [next] calls hand out the
    accepted elements in order and then NULL, its [end] calls answer true
    exactly when all of them have been handed out; the producer's
    [finished] is called once, by the destruction; and every statement
    the map returned was either handed to the consumer or released by the
    destruction, none is left behind. *)
Theorem session_serves_and_cleans_up (fin : finished_fn) (fuel : nat)
    (os : list op) (w : world) (e1 : E) :
  LIBRDF_CALLOC (env w) = (true, e1) ->
  usable e1 ->
  (m = None -> mc = None) ->
  (forall e, usable e -> exists e', fin c e = Ret (tt, e')) ->
  forallb plain os = true ->
  (length (elements e1) < fuel)%nat ->
  exists rs w' evs,
    session fin fuel os w = Ret (rs, w')
    /\ nexts rs
       = take (length (nexts rs))
           ((Some <$> accepted (elements e1))
              ++ replicate (length (nexts rs)) None)
    /\ ends rs = reported os (accepted (elements e1))
    /\ obj w' = None
    /\ log w' = log w ++ evs
    /\ finalize_calls evs = 1%nat
    /\ (is_Some m -> map_results evs = delivered rs ++ released evs)
    /\ (m = None -> pulled evs = delivered rs /\ released evs = []).
Proof.
  intros Hcalloc Hus Hmc Hfin Hplain Hfuel.
  set (s0 := {| context := c; end_of_stream := eos; next_statement := ns;
                finished := fin; is_end_stream := 0; next := None;
                map := None; map_context := None |}).
  set (s1 := {| context := c; end_of_stream := eos; next_statement := ns;
                finished := fin; is_end_stream := 0; next := None;
                map := m; map_context := mc |}).
  set (w1 := {| obj := Some s1; env := e1; log := log w |}).
  assert (Hstart : forall k : pointer -> M (list result),
    (stream <- librdf_new_stream c eos ns fin ;;
     match m with
     | Some _ => librdf_stream_set_map stream m mc
     | None => ret tt
     end ;;; k stream) w = k PTR w1).
  { intros k. unfold bind at 1. unfold librdf_new_stream.
    rewrite Hcalloc. fold s0.
    destruct map_cases as [Hm|[mf Hm]].
    - rewrite Hm. unfold bind, ret. unfold w1, s1.
      by rewrite Hm, (Hmc Hm).
    - rewrite Hm. unfold librdf_stream_set_map, bind, load, store.
      simpl. unfold w1, s1. by rewrite Hm. }
  assert (Hcons : consistent fuel w1 (accepted (elements e1))).
  { exists s1. split; [done|]. split; [by repeat split|].
    split; [done|]. split; [|split; [discriminate|done]].
    unfold pending, accepted. simpl.
    by destruct map_cases as [Hm|[mf Hm]]; rewrite Hm. }
  destruct (run_ops_refines_final fuel os w1 _ Hplain Hcons)
    as (rs & w2 & P' & Hrun & Hn & He & Hcons2).
  destruct (run_ops_trace _ _ _ _ _ _ (eq_refl : obj w1 = Some s1) Hplain Hrun)
    as (s2 & evs & Hobj2 & Hlog & Hmap2 & Hsp & Hh & Hsome & Hnone).
  destruct Hcons2 as (s2' & Hobj2' & Hdr2 & Hus2 & _).
  assert (s2' = s2) by congruence. subst s2'.
  destruct Hsp as (Hc2 & _ & _ & Hf2). simpl in Hc2, Hf2.
  destruct (Hfin (env w2) Hus2) as (e3 & Hfin3).
  assert (Hfree := free_stream_Ret w2 s2 e3 Hobj2).
  rewrite Hf2, Hc2 in Hfree. specialize (Hfree Hfin3).
  eexists rs, _,
    (evs ++ [CallFinished]
         ++ List.map FreeStatement (option_list (next s2)) ++ [FreeStream]).
  split.
  { unfold session. rewrite Hstart.
    rewrite (bind_Ret _ _ _ _ _ Hrun), (bind_Ret _ _ _ _ _ Hfree).
    reflexivity. }
  rewrite Hn, He. split; [apply served_take|]. split; [done|].
  split; [done|]. simpl. split; [by rewrite Hlog, <- app_assoc|].
  destruct (harmless_counts _ Hh) as [Hfc _].
  unfold finalize_calls, map_results, pulled, released in *.
  rewrite !List.filter_app, !length_app, Hfc, !omap_app.
  assert (Hrel : omap (fun ev => match ev with
                                 | FreeStatement st => Some st
                                 | _ => None
                                 end) evs = []).
  { clear -Hh. induction Hh as [|ev evs [_ Hr] _ IH]; [done|].
    destruct ev; simpl in *; try done. }
  rewrite Hrel.
  split; [by destruct (next s2)|]. split.
  - intros Hm. destruct Hsome as [_ Hl]; [done|].
    unfold lookahead in Hl. simpl in Hl. rewrite Hobj2 in Hl.
    rewrite Hl. destruct (next s2); simpl; by rewrite ?app_nil_r.
  - intros Hm. destruct Hnone as (_ & Hp & Hnx); [done|].
    simpl in Hnx. rewrite Hnx, Hp. simpl. by rewrite app_nil_r.
Qed.

End Contract.

(** A stream as [librdf_new_stream] leaves it. *)
Lemma new_stream_fresh (c : option addr) (eos : end_of_stream_fn)
    (ns : next_statement_fn) (fin : finished_fn) (w : world) (e' : E) :
  LIBRDF_CALLOC (env w) = (true, e') ->
  exists s,
    librdf_new_stream c eos ns fin w
      = Ret (PTR, {| obj := Some s; env := e'; log := log w |})
    /\ context s = c /\ end_of_stream s = eos /\ next_statement s = ns
    /\ finished s = fin
    /\ is_end_stream s = 0 /\ next s = None
    /\ map s = None /\ map_context s = None.
Proof.
  intros H. unfold librdf_new_stream. rewrite H.
  eexists. split; [reflexivity|]. simpl. repeat split.
Qed.

End StreamCore.

Arguments Build_librdf_stream {E addr}.
Arguments context {E addr}.
Arguments end_of_stream {E addr}.
Arguments next_statement {E addr}.
Arguments finished {E addr}.
Arguments is_end_stream {E addr}.
Arguments next {E addr}.
Arguments map {E addr}.
Arguments map_context {E addr}.
Arguments Build_world {E addr}.
Arguments obj {E addr}.
Arguments env {E addr}.
Arguments log {E addr}.
Arguments direct {E addr A}.
Arguments librdf_new_stream {E addr}.
Arguments librdf_free_stream {E addr}.
Arguments librdf_stream_next {E addr}.
Arguments librdf_stream_end {E addr}.
Arguments librdf_stream_set_map {E addr}.

(** ** The node-iterator adapter *)

Section Adapter.

(** The field selectors of rdf_statement.h, which is not part of these
    sources: their values are parameters. As the case labels of one
    [switch] they are distinct. *)
Variable LIBRDF_STATEMENT_SUBJECT : Z.
Variable LIBRDF_STATEMENT_PREDICATE : Z.
Variable LIBRDF_STATEMENT_OBJECT : Z.

(** [librdf_stream_from_node_iterator_stream_context] *)
Record librdf_stream_from_node_iterator_stream_context : Type := {
  iterator : pointer;
  statement : librdf_statement;
  field : Z
}.

(** The address of the adapter's context object. *)
Inductive adapter_addr : Type := SCONTEXT.

(** What the adapter's callbacks act on: the node iterator, the context
    object, the allocator and the nodes released so far. *)
Record adapter_env : Type := {
  nodes : option (list librdf_node);
      (* the iterator object: the nodes it is still to yield; None once freed *)
  scontext : option librdf_stream_from_node_iterator_stream_context;
      (* the context object; None when not allocated *)
  allocs : list bool;
      (* the outcomes of the allocations to come; once it is used up,
         allocations succeed *)
  freed_nodes : list librdf_node
}.

(** [LIBRDF_CALLOC] over this environment. *)
Definition adapter_calloc (e : adapter_env) : bool * adapter_env :=
  match allocs e with
  | [] => (true, e)
  | ok :: rest =>
      (ok, {| nodes := nodes e; scontext := scontext e;
              allocs := rest; freed_nodes := freed_nodes e |})
  end.

(** An allocation, as a computation on the environment. *)
Definition allocate : ST adapter_env bool :=
  fun e => Ret (adapter_calloc e).

(** Modelled from the spec: the node iterator (rdf_iterator.c is not part
    of these sources) is a lazy sequence of nodes with a has-more test, a
    get-next operation that yields NULL when there is none, and a
    release operation. *)
Definition librdf_iterator_have_elements (iterator : pointer)
  : ST adapter_env Z :=
  fun e =>
    match iterator, nodes e with
    | PTR, Some [] => Ret (0, e)
    | PTR, Some (_ :: _) => Ret (1, e)
    | _, _ => Undef
    end.

(** Modelled from the spec: get-next of the node iterator. *)
Definition librdf_iterator_get_next (iterator : pointer)
  : ST adapter_env (option librdf_node) :=
  fun e =>
    match iterator, nodes e with
    | PTR, Some [] => Ret (None, e)
    | PTR, Some (n :: rest) =>
        Ret (Some n, {| nodes := Some rest; scontext := scontext e;
                        allocs := allocs e; freed_nodes := freed_nodes e |})
    | _, _ => Undef
    end.

(** Modelled from the spec: release of the node iterator. *)
Definition librdf_free_iterator (iterator : pointer) : ST adapter_env unit :=
  fun e =>
    match iterator, nodes e with
    | PTR, Some _ =>
        Ret (tt, {| nodes := None; scontext := scontext e;
                    allocs := allocs e; freed_nodes := freed_nodes e |})
    | _, _ => Undef
    end.

(** Modelled from the spec: [librdf_new_statement_from_statement]
    (rdf_statement.c) makes an independent copy of a statement, all
    fields included, or yields NULL when the allocation fails. *)
Definition librdf_new_statement_from_statement (st : librdf_statement)
  : ST adapter_env (option librdf_statement) :=
  ok <- allocate ;;
  if ok then
    ret (Some {| subject := subject st; predicate := predicate st;
                 object := object st |})
  else ret None.

(** Modelled from the spec: the setters (rdf_statement.c is not part of
    these sources) put the node into their position of the statement;
    the setter of the subject. *)
Definition librdf_statement_set_subject (st : librdf_statement)
    (node : librdf_node) : librdf_statement :=
  {| subject := Some node; predicate := predicate st; object := object st |}.

(** Modelled from the spec: the setter of the predicate. *)
Definition librdf_statement_set_predicate (st : librdf_statement)
    (node : librdf_node) : librdf_statement :=
  {| subject := subject st; predicate := Some node; object := object st |}.

(** Modelled from the spec: the setter of the object. *)
Definition librdf_statement_set_object (st : librdf_statement)
    (node : librdf_node) : librdf_statement :=
  {| subject := subject st; predicate := predicate st; object := Some node |}.

(** Modelled from the spec: [librdf_free_node] (rdf_node.c is not part
    of these sources) releases a node; the release is recorded. *)
Definition librdf_free_node (node : librdf_node) : ST adapter_env unit :=
  fun e =>
    Ret (tt, {| nodes := nodes e; scontext := scontext e;
                allocs := allocs e; freed_nodes := freed_nodes e ++ [node] |}).

(** Modelled from the spec: [LIBRDF_FATAL2] (librdf.h) reports and aborts;
    it does not return. *)
Definition LIBRDF_FATAL2 {A} : ST adapter_env A := fun _ => Fatal.

(** The cast of the [void*] context and its dereference. *)
Definition load_context (context : option adapter_addr)
  : ST adapter_env librdf_stream_from_node_iterator_stream_context :=
  fun e =>
    match context, scontext e with
    | Some SCONTEXT, Some sc => Ret (sc, e)
    | _, _ => Undef
    end.

(** [LIBRDF_FREE] of the context object. *)
Definition free_context (context : option adapter_addr)
  : ST adapter_env unit :=
  fun e =>
    match context, scontext e with
    | Some SCONTEXT, Some _ =>
        Ret (tt, {| nodes := nodes e; scontext := None;
                    allocs := allocs e; freed_nodes := freed_nodes e |})
    | _, _ => Undef
    end.

(** [librdf_stream_from_node_iterator_end_of_stream] *)
Definition librdf_stream_from_node_iterator_end_of_stream
    (context : option adapter_addr) : ST adapter_env Z :=
  scontext <- load_context context ;;
  r <- librdf_iterator_have_elements (iterator scontext) ;;
  ret (if truthy r then 0 else 1).

(** [librdf_stream_from_node_iterator_next_statement] *)
Definition librdf_stream_from_node_iterator_next_statement
    (context : option adapter_addr)
  : ST adapter_env (option librdf_statement) :=
  scontext <- load_context context ;;
  node <- librdf_iterator_get_next (iterator scontext) ;;
  match node with
  | None => ret None
  | Some node =>
      statement <- librdf_new_statement_from_statement (statement scontext) ;;
      match statement with
      | None => librdf_free_node node ;;; ret None
      | Some statement =>
          statement <-
            (if field scontext =? LIBRDF_STATEMENT_SUBJECT then
               ret (librdf_statement_set_subject statement node)
             else if field scontext =? LIBRDF_STATEMENT_PREDICATE then
               ret (librdf_statement_set_predicate statement node)
             else if field scontext =? LIBRDF_STATEMENT_OBJECT then
               ret (librdf_statement_set_object statement node)
             else LIBRDF_FATAL2) ;;
          ret (Some statement)
      end
  end.

(** [librdf_stream_from_node_iterator_finished] *)
Definition librdf_stream_from_node_iterator_finished
    (context : option adapter_addr) : ST adapter_env unit :=
  scontext <- load_context context ;;
  match iterator scontext with
  | PTR => librdf_free_iterator (iterator scontext)
  | NULL => ret tt
  end ;;;
  free_context context.

(** [librdf_new_stream_from_node_iterator]; [iterator->world] is read
    for the call of [librdf_new_stream]. *)
Definition librdf_new_stream_from_node_iterator (iterator : pointer)
    (statement : librdf_statement) (field : Z)
  : M adapter_env adapter_addr pointer :=
  ok <- direct allocate ;;
  if negb ok then ret NULL
  else
    direct (fun e =>
      Ret (tt, {| nodes := nodes e;
                  scontext := Some {| iterator := iterator;
                                      statement := statement;
                                      field := field |};
                  allocs := allocs e; freed_nodes := freed_nodes e |})) ;;;
    direct (fun e =>
      match iterator, nodes e with
      | PTR, Some _ => Ret (tt, e)
      | _, _ => Undef
      end) ;;;
    stream <- librdf_new_stream adapter_calloc (Some SCONTEXT)
                librdf_stream_from_node_iterator_end_of_stream
                librdf_stream_from_node_iterator_next_statement
                librdf_stream_from_node_iterator_finished ;;
    match stream with
    | NULL =>
        direct (librdf_stream_from_node_iterator_finished (Some SCONTEXT)) ;;;
        ret NULL
    | PTR => ret stream
    end.

(** Calling the adapter's next operation [k] times. *)
Fixpoint pull (k : nat) (context : option adapter_addr)
  : ST adapter_env (list (option librdf_statement)) :=
  match k with
  | O => ret []
  | S k' =>
      r <- librdf_stream_from_node_iterator_next_statement context ;;
      rs <- pull k' context ;;
      ret (r :: rs)
  end.

(** The field selector is one of the three the [switch] knows. *)
Definition legal_field (f : Z) : bool :=
  (f =? LIBRDF_STATEMENT_SUBJECT) || (f =? LIBRDF_STATEMENT_PREDICATE)
  || (f =? LIBRDF_STATEMENT_OBJECT).

(** [st] is the prototype with node [n] in the position [f] selects. *)
Definition filled (f : Z) (proto : librdf_statement) (n : librdf_node)
    (st : librdf_statement) : Prop :=
  (f = LIBRDF_STATEMENT_SUBJECT ->
     subject st = Some n /\ predicate st = predicate proto
     /\ object st = object proto)
  /\ (f = LIBRDF_STATEMENT_PREDICATE ->
     subject st = subject proto /\ predicate st = Some n
     /\ object st = object proto)
  /\ (f = LIBRDF_STATEMENT_OBJECT ->
     subject st = subject proto /\ predicate st = predicate proto
     /\ object st = Some n).

(** Every allocation to come succeeds. *)
Definition all_succeed (l : list bool) : Prop := Forall (fun b => b = true) l.

(** What the [switch] of the next operation makes of a clone and a node
    under a legal selector. *)
Definition with_node (sel : Z) (st : librdf_statement) (n : librdf_node)
  : librdf_statement :=
  if sel =? LIBRDF_STATEMENT_SUBJECT then librdf_statement_set_subject st n
  else if sel =? LIBRDF_STATEMENT_PREDICATE then
    librdf_statement_set_predicate st n
  else librdf_statement_set_object st n.

(** The adapter can be used as a producer: its context object is [sc],
    its iterator is alive and the allocations to come succeed. It is then
    still to yield one statement per node of the iterator. *)
Definition adapter_usable
    (sc : librdf_stream_from_node_iterator_stream_context)
    (e : adapter_env) : Prop :=
  scontext e = Some sc /\ is_Some (nodes e) /\ all_succeed (allocs e).

Definition adapter_elements
    (sc : librdf_stream_from_node_iterator_stream_context)
    (e : adapter_env) : list librdf_statement :=
  match nodes e with
  | Some ns => with_node (field sc) (statement sc) <$> ns
  | None => []
  end.

Lemma adapter_calloc_succeeds e :
  all_succeed (allocs e) ->
  exists e', adapter_calloc e = (true, e')
    /\ nodes e' = nodes e /\ scontext e' = scontext e
    /\ freed_nodes e' = freed_nodes e /\ all_succeed (allocs e').
Proof.
  intros H. unfold adapter_calloc. destruct (allocs e) as [|b rest] eqn:Ha.
  - exists e. rewrite Ha. auto.
  - inversion H; subst. eexists. split; [reflexivity|]. simpl. auto.
Qed.

(** One call of the adapter's next operation with a node at hand and
    the clone succeeding. *)
Lemma next_statement_step (e : adapter_env) (sel : Z)
    (proto : librdf_statement) (n : librdf_node) (rest : list librdf_node) :
  LIBRDF_STATEMENT_SUBJECT <> LIBRDF_STATEMENT_PREDICATE ->
  LIBRDF_STATEMENT_SUBJECT <> LIBRDF_STATEMENT_OBJECT ->
  LIBRDF_STATEMENT_PREDICATE <> LIBRDF_STATEMENT_OBJECT ->
  legal_field sel = true ->
  scontext e = Some {| iterator := PTR; statement := proto; field := sel |} ->
  nodes e = Some (n :: rest) ->
  all_succeed (allocs e) ->
  exists st e',
    librdf_stream_from_node_iterator_next_statement (Some SCONTEXT) e
      = Ret (Some st, e')
    /\ filled sel proto n st
    /\ nodes e' = Some rest /\ scontext e' = scontext e
    /\ freed_nodes e' = freed_nodes e /\ all_succeed (allocs e').
Proof.
  intros Hsp Hso Hpo Hlegal Hsc Hnodes Hall.
  unfold librdf_stream_from_node_iterator_next_statement.
  unfold load_context at 1. unfold bind at 1. rewrite Hsc. simpl.
  unfold librdf_iterator_get_next, bind at 1. rewrite Hnodes.
  unfold librdf_new_statement_from_statement, allocate, bind at 1 2.
  simpl.
  destruct (adapter_calloc_succeeds
              {| nodes := Some rest; scontext := scontext e;
                 allocs := allocs e; freed_nodes := freed_nodes e |} Hall)
    as (e' & Hc & Hn' & Hs' & Hf' & Ha').
  rewrite Hc. simpl in *. unfold ret at 1.
  unfold legal_field in Hlegal. unfold filled.
  destruct (sel =? LIBRDF_STATEMENT_SUBJECT) eqn:H1;
    [|destruct (sel =? LIBRDF_STATEMENT_PREDICATE) eqn:H2;
      [|destruct (sel =? LIBRDF_STATEMENT_OBJECT) eqn:H3; [|discriminate]]];
    unfold bind, ret; simpl; eexists _, e';
    (split; [reflexivity|]); simpl;
    rewrite ?Z.eqb_eq, ?Z.eqb_neq in *;
    repeat split; intros; simpl; auto; try congruence; lia.
Qed.

(** C6. With a legal field selector and the clones succeeding, the
    adapter's next operation, called once per node of the sequence,
    yields one statement per node, in the order of the sequence; each is
    the prototype with the node in the selected position and the
    prototype's own nodes in the other two; the prototype held by the
    context is not written; and the next call reports exhaustion. *)
Theorem adapter_yields_one_clone_per_node (sel : Z)
    (proto : librdf_statement) (ns : list librdf_node) (e : adapter_env) :
  LIBRDF_STATEMENT_SUBJECT <> LIBRDF_STATEMENT_PREDICATE ->
  LIBRDF_STATEMENT_SUBJECT <> LIBRDF_STATEMENT_OBJECT ->
  LIBRDF_STATEMENT_PREDICATE <> LIBRDF_STATEMENT_OBJECT ->
  legal_field sel = true ->
  scontext e = Some {| iterator := PTR; statement := proto; field := sel |} ->
  nodes e = Some ns ->
  all_succeed (allocs e) ->
  exists sts e',
    pull (length ns) (Some SCONTEXT) e = Ret (Some <$> sts, e')
    /\ Forall2 (filled sel proto) ns sts
    /\ nodes e' = Some []
    /\ scontext e' = scontext e
    /\ freed_nodes e' = freed_nodes e
    /\ librdf_stream_from_node_iterator_next_statement (Some SCONTEXT) e'
       = Ret (None, e').
Proof.
  intros Hsp Hso Hpo Hlegal. revert e.
  induction ns as [|n rest IH]; intros e Hsc Hnodes Hall.
  - exists [], e. simpl. unfold ret. repeat split; auto.
    unfold librdf_stream_from_node_iterator_next_statement, bind,
      load_context, librdf_iterator_get_next.
    rewrite Hsc. simpl. by rewrite Hnodes.
  - destruct (next_statement_step e sel proto n rest)
      as (st & e1 & Hnext & Hfill & Hn1 & Hs1 & Hf1 & Ha1); auto.
    destruct (IH e1) as (sts & e' & Hpull & Hall2 & Hn' & Hs' & Hf' & Hend);
      auto; [congruence|].
    exists (st :: sts), e'. simpl.
    rewrite (bind_Ret _ _ _ _ _ Hnext), (bind_Ret _ _ _ _ _ Hpull).
    unfold ret. repeat split; auto; congruence.
Qed.

(** C8. When the clone of the prototype fails after a node has been
    pulled, the adapter releases that node and returns NULL: what it
    also returns when the node sequence is exhausted. *)
Theorem clone_failure_reports_exhaustion (e : adapter_env)
    (sc : librdf_stream_from_node_iterator_stream_context)
    (n : librdf_node) (rest : list librdf_node) (later : list bool) :
  scontext e = Some sc ->
  iterator sc = PTR ->
  nodes e = Some (n :: rest) ->
  allocs e = false :: later ->
  librdf_stream_from_node_iterator_next_statement (Some SCONTEXT) e
    = Ret (None, {| nodes := Some rest; scontext := Some sc;
                    allocs := later; freed_nodes := freed_nodes e ++ [n] |})
  /\ (forall e0,
        scontext e0 = Some sc -> nodes e0 = Some [] ->
        librdf_stream_from_node_iterator_next_statement (Some SCONTEXT) e0
          = Ret (None, e0)).
Proof.
  intros Hsc Hit Hnodes Hallocs. split.
  - unfold librdf_stream_from_node_iterator_next_statement, bind,
      load_context, librdf_iterator_get_next,
      librdf_new_statement_from_statement, allocate, adapter_calloc,
      librdf_free_node, ret.
    rewrite Hsc, Hit. simpl. rewrite Hnodes. simpl. rewrite Hallocs. simpl.
    by rewrite Hsc.
  - intros e0 Hsc0 Hn0.
    unfold librdf_stream_from_node_iterator_next_statement, bind,
      load_context, librdf_iterator_get_next, ret.
    rewrite Hsc0, Hit. simpl. by rewrite Hn0.
Qed.

(** The constructor with its allocations succeeding. *)
Lemma new_stream_from_node_iterator_ok (fld : Z)
    (w : world adapter_env adapter_addr) (proto : librdf_statement)
    (ns0 : list librdf_node) :
  nodes (env w) = Some ns0 ->
  all_succeed (allocs (env w)) ->
  exists e',
    librdf_new_stream_from_node_iterator PTR proto fld w
      = Ret (PTR,
             {| obj := Some
                  {| context := Some SCONTEXT;
                     end_of_stream :=
                       librdf_stream_from_node_iterator_end_of_stream;
                     next_statement :=
                       librdf_stream_from_node_iterator_next_statement;
                     finished := librdf_stream_from_node_iterator_finished;
                     is_end_stream := 0;
                     next := None;
                     map := None;
                     map_context := None |};
                env := e'; log := log w |})
    /\ scontext e'
       = Some {| iterator := PTR; statement := proto; field := fld |}
    /\ nodes e' = Some ns0
    /\ all_succeed (allocs e').
Proof.
  intros Hnodes Hall.
  destruct (adapter_calloc_succeeds (env w) Hall)
    as (e1 & Hc1 & Hn1 & Hs1 & Hf1 & Ha1).
  rewrite Hnodes in Hn1.
  destruct (adapter_calloc_succeeds
              {| nodes := Some ns0;
                 scontext := Some {| iterator := PTR; statement := proto;
                                     field := fld |};
                 allocs := allocs e1; freed_nodes := freed_nodes e1 |} Ha1)
    as (e3 & Hc3 & Hn3 & Hs3 & Hf3 & Ha3).
  unfold librdf_new_stream_from_node_iterator, bind, direct, allocate,
    librdf_new_stream, ret.
  simpl. rewrite Hc1. simpl. rewrite Hn1. simpl. rewrite Hc3.
  exists e3. auto.
Qed.

(** C7, as the code has it. The constructor does not look at the field
    selector: for every selector, legal or not, it returns the stream
    when its allocations succeed. With a selector outside subject,
    predicate and object, the next operation takes the fatal path when it
    has pulled a node and cloned the prototype, and not before: on an
    exhausted node sequence it returns NULL. With a legal selector the
    next operation never takes the fatal path. *)
Theorem field_selector_checked_after_clone (fld : Z) :
  (forall (w : world adapter_env adapter_addr) (proto : librdf_statement)
          (ns0 : list librdf_node),
      nodes (env w) = Some ns0 ->
      all_succeed (allocs (env w)) ->
      exists s e',
        librdf_new_stream_from_node_iterator PTR proto fld w
          = Ret (PTR, {| obj := Some s; env := e'; log := log w |})
        /\ scontext e'
           = Some {| iterator := PTR; statement := proto; field := fld |}
        /\ nodes e' = Some ns0
        /\ context s = Some SCONTEXT
        /\ next_statement s
           = librdf_stream_from_node_iterator_next_statement
        /\ is_end_stream s = 0 /\ next s = None /\ map s = None)
  /\ (legal_field fld = false ->
      forall e sc n rest,
        scontext e = Some sc -> iterator sc = PTR -> field sc = fld ->
        nodes e = Some (n :: rest) ->
        all_succeed (allocs e) ->
        librdf_stream_from_node_iterator_next_statement (Some SCONTEXT) e
          = Fatal)
  /\ (forall e sc,
        scontext e = Some sc -> iterator sc = PTR -> field sc = fld ->
        nodes e = Some [] ->
        librdf_stream_from_node_iterator_next_statement (Some SCONTEXT) e
          = Ret (None, e))
  /\ (legal_field fld = true ->
      forall context e,
        (forall sc, scontext e = Some sc -> field sc = fld) ->
        librdf_stream_from_node_iterator_next_statement context e <> Fatal).
Proof.
  repeat split.
  - intros w proto ns0 Hnodes Hall.
    destruct (new_stream_from_node_iterator_ok fld w proto ns0 Hnodes Hall)
      as (e' & Hnew & Hsc & Hn & _).
    eexists _, e'. split; [exact Hnew|]. simpl. auto 10.
  - intros Hillegal e sc n rest Hsc Hit Hfld Hnodes Hall.
    unfold legal_field in Hillegal.
    apply orb_false_iff in Hillegal as [Hillegal H3].
    apply orb_false_iff in Hillegal as [H1 H2].
    destruct (adapter_calloc_succeeds
                {| nodes := Some rest; scontext := scontext e;
                   allocs := allocs e; freed_nodes := freed_nodes e |} Hall)
      as (e' & Hc & _).
    unfold librdf_stream_from_node_iterator_next_statement.
    unfold load_context at 1. unfold bind at 1. rewrite Hsc. simpl.
    rewrite Hit. unfold librdf_iterator_get_next, bind at 1. rewrite Hnodes.
    unfold librdf_new_statement_from_statement, allocate, bind at 1 2.
    simpl. rewrite Hc. simpl. unfold ret at 1.
    rewrite Hfld, H1, H2, H3. reflexivity.
  - intros e sc Hsc Hit Hfld Hnodes.
    unfold librdf_stream_from_node_iterator_next_statement, bind,
      load_context, librdf_iterator_get_next, ret.
    rewrite Hsc, Hit. simpl. by rewrite Hnodes.
  - intros Hlegal context e Hfld.
    unfold librdf_stream_from_node_iterator_next_statement, bind,
      load_context, librdf_iterator_get_next,
      librdf_new_statement_from_statement, allocate, librdf_free_node,
      ret, LIBRDF_FATAL2.
    destruct context as [[]|]; [|done].
    destruct (scontext e) as [sc|] eqn:Hsc; [|done].
    rewrite (Hfld sc eq_refl). unfold legal_field in Hlegal.
    destruct (iterator sc); [done|].
    destruct (nodes e) as [[|n rest]|]; try done. unfold bind. simpl.
    match goal with
    | |- context [adapter_calloc ?x] => destruct (adapter_calloc x) as [[] ?]
    end; simpl; [|done].
    destruct (fld =? LIBRDF_STATEMENT_SUBJECT); [done|].
    destruct (fld =? LIBRDF_STATEMENT_PREDICATE); [done|].
    destruct (fld =? LIBRDF_STATEMENT_OBJECT); [done|discriminate].
Qed.

(** *** The adapter as a producer of the stream core *)

Section AdapterContract.

Variable sc : librdf_stream_from_node_iterator_stream_context.
Hypothesis sc_iterator : iterator sc = PTR.
Hypothesis sc_legal : legal_field (field sc) = true.

Lemma adapter_end_of_stream_spec : forall e, adapter_usable sc e ->
  exists v e',
    librdf_stream_from_node_iterator_end_of_stream (Some SCONTEXT) e
      = Ret (v, e')
    /\ adapter_usable sc e'
    /\ adapter_elements sc e' = adapter_elements sc e
    /\ (truthy v = true <-> adapter_elements sc e = []).
Proof.
  intros e (Hsc & [ns Hn] & Hall).
  unfold librdf_stream_from_node_iterator_end_of_stream, bind, load_context,
    librdf_iterator_have_elements, ret, adapter_elements.
  rewrite Hsc, sc_iterator. simpl. rewrite Hn.
  destruct ns as [|n ns]; simpl; eexists _, e;
    (split; [reflexivity|]); (split; [by repeat split; eauto|]);
    rewrite Hn; (split; [reflexivity|]); split; intros H; try done.
Qed.

Lemma adapter_next_statement_spec : forall e, adapter_usable sc e ->
  exists e',
    librdf_stream_from_node_iterator_next_statement (Some SCONTEXT) e
      = Ret (head (adapter_elements sc e), e')
    /\ adapter_usable sc e'
    /\ adapter_elements sc e' = tail (adapter_elements sc e).
Proof.
  intros e (Hsc & [ns Hn] & Hall).
  unfold librdf_stream_from_node_iterator_next_statement.
  unfold load_context at 1. unfold bind at 1. rewrite Hsc. simpl.
  rewrite sc_iterator. unfold librdf_iterator_get_next, bind at 1.
  unfold adapter_elements at 1 3. rewrite Hn.
  destruct ns as [|n rest].
  - exists e. unfold ret. simpl. split; [reflexivity|].
    split; [by repeat split; eauto|]. unfold adapter_elements. by rewrite Hn.
  - unfold librdf_new_statement_from_statement, allocate, bind at 1 2.
    simpl.
    destruct (adapter_calloc_succeeds
                {| nodes := Some rest; scontext := scontext e;
                   allocs := allocs e; freed_nodes := freed_nodes e |} Hall)
      as (e' & Hc & Hn' & Hs' & Hf' & Ha').
    rewrite Hc. simpl in *. unfold ret at 1.
    pose proof sc_legal as Hlegal. unfold legal_field in Hlegal.
    exists e'. split; [|split].
    + unfold with_node.
      destruct (field sc =? LIBRDF_STATEMENT_SUBJECT);
        [|destruct (field sc =? LIBRDF_STATEMENT_PREDICATE);
          [|destruct (field sc =? LIBRDF_STATEMENT_OBJECT);
            [|discriminate]]];
        reflexivity.
    + split; [congruence|]. split; [rewrite Hn'; eauto|done].
    + unfold adapter_elements. by rewrite Hn'.
Qed.

End AdapterContract.

(** X1. The stream the constructor returns, driven by [end] and [next]
    calls: the [next] calls return the prototype with the nodes of the
    sequence in the selected position, one per node and in order, then
    NULL. *)
Theorem stream_from_node_iterator_serves_clones (sel : Z)
    (proto : librdf_statement) (ns0 : list librdf_node)
    (w0 : world adapter_env adapter_addr) (fuel : nat)
    (os : list (op adapter_env adapter_addr)) :
  legal_field sel = true ->
  nodes (env w0) = Some ns0 ->
  all_succeed (allocs (env w0)) ->
  forallb (plain adapter_env adapter_addr) os = true ->
  (length ns0 < fuel)%nat ->
  exists w rs w',
    librdf_new_stream_from_node_iterator PTR proto sel w0 = Ret (PTR, w)
    /\ run_ops adapter_env adapter_addr fuel PTR os w = Ret (rs, w')
    /\ nexts rs
       = take (length (nexts rs))
           ((Some <$> (with_node sel proto <$> ns0))
              ++ replicate (length (nexts rs)) None).
Proof.
  intros Hlegal Hnodes Hall Hplain Hfuel.
  destruct (new_stream_from_node_iterator_ok sel w0 proto ns0 Hnodes Hall)
    as (e' & Hnew & Hsc & Hn & Ha).
  set (sc := {| iterator := PTR; statement := proto; field := sel |}) in *.
  match type of Hnew with _ = Ret (_, ?w) => set (w1 := w) in * end.
  destruct (run_ops_refines adapter_env adapter_addr
              (Some SCONTEXT)
              librdf_stream_from_node_iterator_end_of_stream
              librdf_stream_from_node_iterator_next_statement
              (adapter_usable sc) (adapter_elements sc)
              (adapter_end_of_stream_spec sc eq_refl)
              (adapter_next_statement_spec sc eq_refl Hlegal)
              None None Some
              ltac:(intros mf Hmf; discriminate Hmf)
              fuel os w1 (with_node sel proto <$> ns0) Hplain)
    as (rs & w' & Hrun & Hnx & _).
  { eexists. split; [reflexivity|]. split; [by repeat split|].
    simpl. split; [by repeat split; eauto|].
    unfold pending, adapter_elements. rewrite Hn. simpl.
    split; [reflexivity|]. split; [discriminate|].
    by rewrite length_fmap. }
  exists w1, rs, w'. split; [exact Hnew|]. split; [exact Hrun|].
  rewrite Hnx. apply served_take.
Qed.

(** *** Failure and release paths of the adapter *)

(** X9. The failures of the constructor. When the allocation of the
    context object fails it returns NULL and leaves the iterator alone:
    the iterator stays with the caller. When the context object is
    allocated and the allocation of the stream fails, it returns NULL
    after running the adapter's finalizer, which releases the iterator
    and the context object: the caller has lost the iterator. A NULL
    iterator is dereferenced once the context object is allocated. *)
Theorem new_stream_from_node_iterator_failures (proto : librdf_statement)
    (fld : Z) (w : world adapter_env adapter_addr) :
  (forall it rest,
      allocs (env w) = false :: rest ->
      librdf_new_stream_from_node_iterator it proto fld w
      = Ret (NULL,
             {| obj := obj w;
                env := {| nodes := nodes (env w);
                          scontext := scontext (env w);
                          allocs := rest;
                          freed_nodes := freed_nodes (env w) |};
                log := log w |}))
  /\ (forall ns0 rest,
        allocs (env w) = true :: false :: rest ->
        nodes (env w) = Some ns0 ->
        librdf_new_stream_from_node_iterator PTR proto fld w
        = Ret (NULL,
               {| obj := obj w;
                  env := {| nodes := None;
                            scontext := None;
                            allocs := rest;
                            freed_nodes := freed_nodes (env w) |};
                  log := log w |}))
  /\ (forall rest,
        allocs (env w) = true :: rest ->
        librdf_new_stream_from_node_iterator NULL proto fld w = Undef).
Proof.
  repeat split.
  - intros it rest Ha.
    unfold librdf_new_stream_from_node_iterator, bind, direct, allocate,
      adapter_calloc, ret.
    by rewrite Ha.
  - intros ns0 rest Ha Hn.
    unfold librdf_new_stream_from_node_iterator, bind, direct, allocate,
      adapter_calloc, librdf_new_stream, ret,
      librdf_stream_from_node_iterator_finished, load_context,
      librdf_free_iterator, free_context.
    rewrite Ha. simpl. by rewrite Hn.
  - intros rest Ha.
    unfold librdf_new_stream_from_node_iterator, bind, direct, allocate,
      adapter_calloc, ret.
    by rewrite Ha.
Qed.

(** X10. Destroying a stream over the adapter releases the iterator,
    the context object, the buffered statement if there is one and the
    stream object, in this order; the nodes the iterator had not yet
    yielded are not released one by one by this file. After that the
    stream and the context are gone: a second destruction and a call of
    the adapter's operations are undefined. *)
Theorem free_stream_over_node_iterator
    (w : world adapter_env adapter_addr)
    (s : librdf_stream adapter_env adapter_addr)
    (sc : librdf_stream_from_node_iterator_stream_context)
    (ns0 : list librdf_node) :
  obj w = Some s ->
  context s = Some SCONTEXT ->
  finished s = librdf_stream_from_node_iterator_finished ->
  scontext (env w) = Some sc ->
  iterator sc = PTR ->
  nodes (env w) = Some ns0 ->
  let w' :=
    {| obj := None;
       env := {| nodes := None; scontext := None;
                 allocs := allocs (env w);
                 freed_nodes := freed_nodes (env w) |};
       log := log w ++ [CallFinished]
                ++ List.map FreeStatement (option_list (next s))
                ++ [FreeStream] |} in
  librdf_free_stream PTR w = Ret (tt, w')
  /\ librdf_free_stream PTR w' = Undef
  /\ librdf_stream_from_node_iterator_next_statement (Some SCONTEXT) (env w')
     = Undef
  /\ librdf_stream_from_node_iterator_end_of_stream (Some SCONTEXT) (env w')
     = Undef.
Proof.
  intros Hobj Hc Hf Hsc Hit Hn. simpl. split; [|by repeat split].
  apply free_stream_Ret; [done|].
  rewrite Hf, Hc.
  destruct (env w) as [nd sx al fr], sc as [it st fld].
  simpl in *. by subst.
Qed.

(** The next operation with a node at hand, a legal selector and the
    clone succeeding. *)
Lemma next_statement_fills (e : adapter_env) (sel : Z)
    (proto : librdf_statement) (n : librdf_node) (rest : list librdf_node) :
  legal_field sel = true ->
  scontext e = Some {| iterator := PTR; statement := proto; field := sel |} ->
  nodes e = Some (n :: rest) ->
  all_succeed (allocs e) ->
  exists e',
    librdf_stream_from_node_iterator_next_statement (Some SCONTEXT) e
      = Ret (Some (with_node sel proto n), e')
    /\ nodes e' = Some rest /\ scontext e' = scontext e
    /\ freed_nodes e' = freed_nodes e /\ all_succeed (allocs e').
Proof.
  intros Hlegal Hsc Hnodes Hall.
  unfold librdf_stream_from_node_iterator_next_statement.
  unfold load_context at 1. unfold bind at 1. rewrite Hsc. simpl.
  unfold librdf_iterator_get_next, bind at 1. rewrite Hnodes.
  unfold librdf_new_statement_from_statement, allocate, bind at 1 2.
  simpl.
  destruct (adapter_calloc_succeeds
              {| nodes := Some rest; scontext := scontext e;
                 allocs := allocs e; freed_nodes := freed_nodes e |} Hall)
    as (e' & Hc & Hn' & Hs' & Hf' & Ha').
  rewrite Hc. simpl in *. unfold ret at 1.
  unfold legal_field in Hlegal. unfold with_node.
  exists e'.
  destruct (sel =? LIBRDF_STATEMENT_SUBJECT);
    [|destruct (sel =? LIBRDF_STATEMENT_PREDICATE);
      [|destruct (sel =? LIBRDF_STATEMENT_OBJECT); [|discriminate]]];
    unfold bind, ret; simpl; (split; [reflexivity|]);
    repeat split; simpl; auto; congruence.
Qed.

(** The next operation with a node at hand and the clone failing. *)
Lemma next_statement_clone_fails (e : adapter_env)
    (sc : librdf_stream_from_node_iterator_stream_context)
    (n : librdf_node) (rest : list librdf_node) (later : list bool) :
  scontext e = Some sc ->
  iterator sc = PTR ->
  nodes e = Some (n :: rest) ->
  allocs e = false :: later ->
  librdf_stream_from_node_iterator_next_statement (Some SCONTEXT) e
    = Ret (None, {| nodes := Some rest; scontext := Some sc;
                    allocs := later; freed_nodes := freed_nodes e ++ [n] |}).
Proof.
  intros Hsc Hit Hnodes Hallocs.
  unfold librdf_stream_from_node_iterator_next_statement, bind,
    load_context, librdf_iterator_get_next,
    librdf_new_statement_from_statement, allocate, adapter_calloc,
    librdf_free_node, ret.
  rewrite Hsc, Hit. simpl. rewrite Hnodes. simpl. rewrite Hallocs. simpl.
  by rewrite Hsc.
Qed.

(** X11. A failing clone ends the stream only when a map is installed.
    With the clone of the prototype failing for the node [n1] and
    succeeding afterwards, and a node [n2] behind it: with no map
    installed, [next] returns NULL, the following [end] answers false and
    the following [next] returns the statement for [n2], so [n1] is
    skipped and the NULL was not the end; with a map installed, the same
    calls return NULL, true and NULL, the flag is set and [n2] is never
    pulled. In both cases [n1] is released. *)
Theorem clone_failure_ends_stream_only_with_map (fuel : nat) (sel : Z)
    (proto : librdf_statement) (n1 n2 : librdf_node)
    (rest : list librdf_node) (later : list bool)
    (w : world adapter_env adapter_addr)
    (s : librdf_stream adapter_env adapter_addr) :
  legal_field sel = true ->
  obj w = Some s ->
  context s = Some SCONTEXT ->
  end_of_stream s = librdf_stream_from_node_iterator_end_of_stream ->
  next_statement s = librdf_stream_from_node_iterator_next_statement ->
  truthy (is_end_stream s) = false ->
  next s = None ->
  scontext (env w)
  = Some {| iterator := PTR; statement := proto; field := sel |} ->
  nodes (env w) = Some (n1 :: n2 :: rest) ->
  allocs (env w) = false :: later ->
  all_succeed later ->
  (map s = None ->
   exists w',
     run_ops adapter_env adapter_addr fuel PTR [OpNext _ _; OpEnd _ _; OpNext _ _] w
     = Ret ([RNext None; REnd 0; RNext (Some (with_node sel proto n2))], w')
     /\ nodes (env w') = Some rest
     /\ freed_nodes (env w') = freed_nodes (env w) ++ [n1])
  /\ (forall mf,
        map s = Some mf ->
        (0 < fuel)%nat ->
        exists w' s',
          run_ops adapter_env adapter_addr fuel PTR [OpNext _ _; OpEnd _ _; OpNext _ _] w
          = Ret ([RNext None; REnd 1; RNext None], w')
          /\ obj w' = Some s' /\ is_end_stream s' = 1
          /\ nodes (env w') = Some (n2 :: rest)
          /\ freed_nodes (env w') = freed_nodes (env w) ++ [n1]).
Proof.
  intros Hlegal Hobj Hc Heos Hns Hflag Hnx Hsc Hnodes Ha Hlater.
  pose proof (next_statement_clone_fails (env w) _ n1 (n2 :: rest) later
                Hsc eq_refl Hnodes Ha) as Hfail.
  set (e1 := {| nodes := Some (n2 :: rest);
                scontext := Some {| iterator := PTR; statement := proto;
                                    field := sel |};
                allocs := later;
                freed_nodes := freed_nodes (env w) ++ [n1] |}) in *.
  assert (Heos1 : librdf_stream_from_node_iterator_end_of_stream
                    (Some SCONTEXT) e1 = Ret (0, e1)) by reflexivity.
  assert (Heos0 : librdf_stream_from_node_iterator_end_of_stream
                    (Some SCONTEXT) (env w) = Ret (0, env w)).
  { unfold librdf_stream_from_node_iterator_end_of_stream, bind,
      load_context, librdf_iterator_have_elements, ret.
    rewrite Hsc. simpl. by rewrite Hnodes. }
  destruct (next_statement_fills e1 sel proto n2 rest Hlegal eq_refl eq_refl
              Hlater) as (e2 & Hnext2 & Hn2 & Hs2 & Hf2 & Ha2).
  destruct w as [ob e lg]. simpl in *. subst ob. split.
  - intros Hmap.
    unfold run_ops, run_op, librdf_stream_next, librdf_stream_end,
      bind, load, store, call, ret.
    simpl. rewrite Hflag. simpl. rewrite Hmap. simpl.
    rewrite Hns, Hc, Hfail. simpl.
    rewrite Hflag. simpl. rewrite Hmap. simpl.
    rewrite Heos, Hc, Heos1. simpl. rewrite Hmap. simpl.
    rewrite Hns, Hc, Hnext2. simpl.
    eexists. split; [reflexivity|]. simpl. auto.
  - intros mf Hmap Hfuel. destruct fuel as [|fuel]; [lia|].
    unfold run_ops, run_op, librdf_stream_next, librdf_stream_end.
    unfold bind, load, store, call, ret. simpl.
    rewrite Hflag. simpl. rewrite Hmap. simpl. rewrite Hnx. simpl.
    unfold bind, load, call, ret. simpl.
    rewrite Heos, Hc, Heos0. simpl. rewrite Hns, Hfail. simpl.
    eexists _, _. split; [reflexivity|]. simpl. auto.
Qed.

(** X12. The stream of the constructor with a map installed on it: the
    [next] calls hand out what the map makes of the clones it accepts,
    in the order of the nodes, then NULL, and the [end] calls answer true
    exactly when all of them have been handed out. *)
Theorem mapped_stream_from_node_iterator_serves_accepted (sel : Z)
    (proto : librdf_statement) (ns0 : list librdf_node)
    (mf : map_fn adapter_env adapter_addr) (mc : option adapter_addr)
    (accept : librdf_statement -> option librdf_statement)
    (w0 : world adapter_env adapter_addr) (fuel : nat)
    (os : list (op adapter_env adapter_addr)) :
  legal_field sel = true ->
  nodes (env w0) = Some ns0 ->
  all_succeed (allocs (env w0)) ->
  (forall st e,
      adapter_usable {| iterator := PTR; statement := proto; field := sel |} e ->
      mf mc st e = Ret (accept st, e)) ->
  forallb (plain adapter_env adapter_addr) os = true ->
  (length ns0 < fuel)%nat ->
  exists rs w',
    (stream <- librdf_new_stream_from_node_iterator PTR proto sel ;;
     librdf_stream_set_map stream (Some mf) mc ;;;
     run_ops adapter_env adapter_addr fuel stream os) w0
    = Ret (rs, w')
    /\ nexts rs
       = take (length (nexts rs))
           ((Some <$> omap accept (with_node sel proto <$> ns0))
              ++ replicate (length (nexts rs)) None)
    /\ ends rs
       = reported adapter_env adapter_addr os
           (omap accept (with_node sel proto <$> ns0)).
Proof.
  intros Hlegal Hnodes Hall Hmf Hplain Hfuel.
  destruct (new_stream_from_node_iterator_ok sel w0 proto ns0 Hnodes Hall)
    as (e' & Hnew & Hsc & Hn & Ha).
  set (sc := {| iterator := PTR; statement := proto; field := sel |}) in *.
  set (s1 := {| context := Some SCONTEXT;
                end_of_stream := librdf_stream_from_node_iterator_end_of_stream;
                next_statement :=
                  librdf_stream_from_node_iterator_next_statement;
                finished := librdf_stream_from_node_iterator_finished;
                is_end_stream := 0; next := None;
                map := Some mf; map_context := mc |}).
  set (w1 := {| obj := Some s1; env := e'; log := log w0 |}).
  destruct (run_ops_refines adapter_env adapter_addr
              (Some SCONTEXT)
              librdf_stream_from_node_iterator_end_of_stream
              librdf_stream_from_node_iterator_next_statement
              (adapter_usable sc) (adapter_elements sc)
              (adapter_end_of_stream_spec sc eq_refl)
              (adapter_next_statement_spec sc eq_refl Hlegal)
              (Some mf) mc accept
              ltac:(intros mf' Hmf' st e Hus; inversion Hmf'; subst mf';
                    exists e; rewrite (Hmf st e Hus); auto)
              fuel os w1 (omap accept (with_node sel proto <$> ns0)) Hplain)
    as (rs & w' & Hrun & Hnx & Hends).
  { exists s1. split; [reflexivity|]. split; [by repeat split|].
    simpl. split; [by repeat split; eauto|].
    unfold pending, adapter_elements. rewrite Hn. simpl.
    split; [reflexivity|]. split; [discriminate|].
    by rewrite length_fmap. }
  exists rs, w'. split.
  - rewrite (bind_Ret _ _ _ _ _ Hnew).
    unfold librdf_stream_set_map, bind at 1 2, load, store. simpl.
    exact Hrun.
  - rewrite Hnx, Hends. split; [apply served_take|done].
Qed.

End Adapter.
End Librdf.

Arguments Build_librdf_statement {librdf_node}.
Arguments subject {librdf_node}.
Arguments predicate {librdf_node}.
Arguments object {librdf_node}.
Arguments Build_librdf_stream {librdf_node E addr}.
Arguments context {librdf_node E addr}.
Arguments end_of_stream {librdf_node E addr}.
Arguments next_statement {librdf_node E addr}.
Arguments finished {librdf_node E addr}.
Arguments is_end_stream {librdf_node E addr}.
Arguments next {librdf_node E addr}.
Arguments map {librdf_node E addr}.
Arguments map_context {librdf_node E addr}.
Arguments set_next {librdf_node E addr}.
Arguments set_is_end_stream {librdf_node E addr}.
Arguments Build_world {librdf_node E addr}.
Arguments obj {librdf_node E addr}.
Arguments env {librdf_node E addr}.
Arguments log {librdf_node E addr}.
Arguments CallEndOfStream {librdf_node}.
Arguments CallNextStatement {librdf_node}.
Arguments CallMap {librdf_node}.
Arguments CallFinished {librdf_node}.
Arguments FreeStatement {librdf_node}.
Arguments FreeStream {librdf_node}.
Arguments OpEnd {librdf_node E addr}.
Arguments OpNext {librdf_node E addr}.
Arguments OpSetMap {librdf_node E addr}.
Arguments REnd {librdf_node}.
Arguments RNext {librdf_node}.
Arguments RSetMap {librdf_node}.
Arguments librdf_new_stream {librdf_node E addr}.
Arguments librdf_free_stream {librdf_node E addr}.
Arguments librdf_stream_get_next_mapped_statement {librdf_node E addr}.
Arguments librdf_stream_next {librdf_node E addr}.
Arguments librdf_stream_end {librdf_node E addr}.
Arguments librdf_stream_set_map {librdf_node E addr}.
Arguments run_op {librdf_node E addr}.
Arguments run_ops {librdf_node E addr}.
Arguments nexts {librdf_node}.
Arguments ends {librdf_node}.
Arguments pulls {librdf_node}.
Arguments finalize_calls {librdf_node}.
Arguments lookahead {librdf_node E addr}.
Arguments accepted {librdf_node E addr}.
Arguments drives {librdf_node E addr}.
Arguments plain {librdf_node E addr}.
Arguments is_next {librdf_node E addr}.
Arguments Build_librdf_stream_from_node_iterator_stream_context {librdf_node}.
Arguments iterator {librdf_node}.
Arguments statement {librdf_node}.
Arguments field {librdf_node}.
Arguments Build_adapter_env {librdf_node}.
Arguments nodes {librdf_node}.
Arguments scontext {librdf_node}.
Arguments allocs {librdf_node}.
Arguments freed_nodes {librdf_node}.
Arguments librdf_stream_from_node_iterator_end_of_stream {librdf_node}.
Arguments librdf_stream_from_node_iterator_next_statement {librdf_node}.
Arguments librdf_stream_from_node_iterator_finished {librdf_node}.
Arguments librdf_new_stream_from_node_iterator {librdf_node}.
Arguments pull {librdf_node}.
Arguments filled {librdf_node}.
Arguments all_succeed : clear implicits.
Arguments is_release {librdf_node}.
Arguments pulled {librdf_node}.
Arguments map_args {librdf_node}.
Arguments map_results {librdf_node}.
Arguments delivered {librdf_node}.
Arguments released {librdf_node}.
Arguments same_producer {librdf_node E addr}.
Arguments session {librdf_node E addr}.

(** ** Worked instances

    A producer that yields the statements of a list, a map that keeps
    the statements with a subject, and nodes that are numbers. *)

Definition triple (s p o : option nat) : librdf_statement nat :=
  {| subject := s; predicate := p; object := o |}.

Definition list_env : Type := list (librdf_statement nat).

Definition list_end_of_stream : end_of_stream_fn list_env unit :=
  fun _ e => Ret (match e with [] => 1 | _ :: _ => 0 end, e).

Definition list_next_statement : next_statement_fn nat list_env unit :=
  fun _ e => Ret (head e, tail e).

Definition list_finished : finished_fn list_env unit :=
  fun _ e => Ret (tt, e).

Definition with_subject (st : librdf_statement nat)
  : option (librdf_statement nat) :=
  match subject st with
  | Some _ => Some st
  | None => None
  end.

Definition keep_with_subject : map_fn nat list_env unit :=
  fun _ st e => Ret (with_subject st, e).

(** A stream object over the list producer. *)
Definition list_stream (m : option (map_fn nat list_env unit))
    (slot : option (librdf_statement nat)) (flag : Z)
  : librdf_stream nat list_env unit :=
  {| context := None;
     end_of_stream := list_end_of_stream;
     next_statement := list_next_statement;
     finished := list_finished;
     is_end_stream := flag;
     next := slot;
     map := m;
     map_context := None |}.

Definition list_world (s : librdf_stream nat list_env unit) (e : list_env)
  : world nat list_env unit :=
  {| obj := Some s; env := e; log := [] |}.

Definition st_a : librdf_statement nat :=
  triple (Some 1%nat) (Some 10%nat) (Some 20%nat).
Definition st_b : librdf_statement nat :=
  triple None (Some 11%nat) (Some 21%nat).
Definition st_c : librdf_statement nat :=
  triple (Some 3%nat) (Some 12%nat) (Some 22%nat).
Definition st_d : librdf_statement nat :=
  triple None (Some 13%nat) (Some 23%nat).

(** The list producer keeps the contract in every environment, with the
    list itself as the elements still to come, and the map does not
    touch the list. *)
Definition always (e : list_env) : Prop := True.

Lemma list_end_of_stream_spec : forall e : list_env, always e ->
  exists v e',
    list_end_of_stream None e = Ret (v, e')
    /\ always e' /\ e' = e /\ (truthy v = true <-> e = []).
Proof.
  intros [|x l] _; eexists _, _; (split; [reflexivity|]);
    (split; [exact I|]); (split; [reflexivity|]);
    unfold truthy; simpl; split; intros H;
    (reflexivity || discriminate H).
Qed.

Lemma list_next_statement_spec : forall e : list_env, always e ->
  exists e',
    list_next_statement None e = Ret (head e, e')
    /\ always e' /\ e' = tail e.
Proof. intros e _. eexists. repeat split. Qed.

Lemma keep_with_subject_spec :
  forall mf, Some keep_with_subject = Some mf ->
  forall st (e : list_env), always e -> exists e',
    mf None st e = Ret (with_subject st, e') /\ always e' /\ e' = e.
Proof.
  intros mf H st e _. inversion H; subst. eexists. repeat split.
Qed.

Definition calls : list (op nat list_env unit) :=
  [OpEnd; OpNext; OpEnd; OpEnd; OpNext; OpEnd; OpNext; OpNext].

(** The producer yields a, b, c, d and the map discards b and d: the four
    calls of [next] return a, c, NULL, NULL. *)
Lemma stream_serves_accepted_elements_witness :
  exists rs w',
    run_ops 5 PTR calls
      (list_world (list_stream (Some keep_with_subject) None 0)
         [st_a; st_b; st_c; st_d])
    = Ret (rs, w')
    /\ length (nexts rs) = 4%nat
    /\ nexts rs
       = take (length (nexts rs))
           ((Some <$> [st_a; st_c]) ++ replicate (length (nexts rs)) None)
    /\ ends rs = [false; false; false; true].
Proof.
  refine (stream_serves_accepted_elements nat list_env unit
            None list_end_of_stream list_next_statement always (fun e => e)
            list_end_of_stream_spec list_next_statement_spec
            (Some keep_with_subject) None with_subject
            keep_with_subject_spec
            5%nat calls
            (list_world (list_stream (Some keep_with_subject) None 0)
               [st_a; st_b; st_c; st_d])
            (list_stream (Some keep_with_subject) None 0)
            _ _ _ _ _ _ _).
  - reflexivity.
  - repeat split.
  - exact I.
  - reflexivity.
  - reflexivity.
  - reflexivity.
  - simpl. lia.
Defined.

(** A stream whose flag is set stays ended under any calls. *)
Lemma ended_flag_sticky_witness :
  exists rs w' s',
    run_ops 0 PTR
      [OpNext; OpSetMap (Some keep_with_subject) None; OpEnd; OpNext]
      (list_world (list_stream None (Some st_a) 1) [st_b]) = Ret (rs, w')
    /\ obj w' = Some s'
    /\ truthy (is_end_stream s') = true
    /\ env w' = [st_b] /\ log w' = [].
Proof.
  apply (proj1 (ended_flag_sticky_and_single_lookahead nat list_env unit)
           0%nat
           [OpNext; OpSetMap (Some keep_with_subject) None; OpEnd; OpNext]
           (list_world (list_stream None (Some st_a) 1) [st_b])
           (list_stream None (Some st_a) 1));
    reflexivity.
Defined.

(** [end] with a map: statement buffered; slot empty and an element
    found after one is discarded. *)
Lemma end_with_map_witness :
  librdf_stream_end 3 PTR
    (list_world (list_stream (Some keep_with_subject) (Some st_c) 0) [st_d])
  = Ret (0, list_world (list_stream (Some keep_with_subject) (Some st_c) 0)
              [st_d])
  /\ exists lg,
      librdf_stream_end 3 PTR
        (list_world (list_stream (Some keep_with_subject) None 0)
           [st_b; st_a; st_d])
      = Ret (0, {| obj := Some (list_stream (Some keep_with_subject)
                                  (Some st_a) 0);
                   env := [st_d]; log := lg |})
      /\ pulls lg = 2%nat.
Proof.
  split.
  - apply (proj1 (end_with_map nat list_env unit 3%nat
             (list_world (list_stream (Some keep_with_subject) (Some st_c) 0)
                [st_d])
             _ keep_with_subject eq_refl eq_refl eq_refl) st_c).
    reflexivity.
  - eexists. split.
    + exact (proj2 (end_with_map nat list_env unit 3%nat
               (list_world (list_stream (Some keep_with_subject) None 0)
                  [st_b; st_a; st_d])
               _ keep_with_subject eq_refl eq_refl eq_refl) eq_refl).
    + reflexivity.
Defined.

(** Over b, a with the map that discards b: the first [end] pulls b
    and a, buffers a and answers 0; the second answers 0 and pulls
    nothing. *)
Lemma end_twice_second_is_quiet_witness :
  exists v1 w1 v2 w2 evs1 evs2,
    librdf_stream_end 3 PTR
      (list_world (list_stream (Some keep_with_subject) None 0) [st_b; st_a])
    = Ret (v1, w1)
    /\ librdf_stream_end 3 PTR w1 = Ret (v2, w2)
    /\ v1 = 0 /\ v2 = 0
    /\ obj w2 = obj w1
    /\ env w2 = env w1
    /\ log w1 = evs1
    /\ log w2 = log w1 ++ evs2
    /\ pulled evs1 = [st_b; st_a]
    /\ pulled evs2 = []
    /\ pulls (log w1) = 2%nat
    /\ pulls (log w2) = pulls (log w1)
    /\ env w1 = []
    /\ lookahead w1 = [st_a].
Proof.
  destruct (end_twice_second_is_quiet nat list_env unit
              None list_end_of_stream list_next_statement always
              (fun e => e)
              list_end_of_stream_spec list_next_statement_spec
              (Some keep_with_subject) None with_subject
              keep_with_subject_spec
              3%nat
              (list_world (list_stream (Some keep_with_subject) None 0)
                 [st_b; st_a])
              (list_stream (Some keep_with_subject) None 0)
              eq_refl
              (conj eq_refl (conj eq_refl (conj eq_refl
                 (conj eq_refl eq_refl))))
              I
              (le_n 3))
    as (v1 & w1 & v2 & w2 & evs1 & evs2 & Hend1 & Hend2 & _ & Hz & _ & _
        & Hobj & Henv & Hlog2 & Hq2 & Hp2 & Hlog1 & _ & _ & _ & Hfirst).
  destruct (Hfirst (ex_intro _ keep_with_subject eq_refl) eq_refl eq_refl
              [st_b] [st_a] ltac:(repeat constructor)
              eq_refl)
    as [_ Hfound].
  destruct (Hfound st_a [] st_a eq_refl eq_refl)
    as (Hv1 & Hq1 & Hp1 & He1 & Hla).
  exists v1, w1, v2, w2, evs1, evs2.
  repeat split; auto.
Defined.

(** The same two calls pull two raw elements in total, not at most
    one, although the end test of the list producer has no effect and
    always gives the same answer. *)
Lemma end_twice_pulls_two_elements :
  (forall e : list_env, exists v, list_end_of_stream None e = Ret (v, e))
  /\ exists v1 w1 v2 w2,
      librdf_stream_end 3 PTR
        (list_world (list_stream (Some keep_with_subject) None 0)
           [st_b; st_a])
      = Ret (v1, w1)
      /\ librdf_stream_end 3 PTR w1 = Ret (v2, w2)
      /\ pulls (log w2) = 2%nat
      /\ ~ (pulls (log w2) <= 1)%nat.
Proof.
  split; [intros e; eexists; reflexivity|].
  eexists _, _, _, _. split; [reflexivity|]. split; [reflexivity|].
  split; [reflexivity|]. vm_compute. lia.
Qed.

(** Destroying a stream in mid-consumption, with a statement buffered. *)
Lemma free_stream_finalizes_once_witness :
  exists w',
    librdf_free_stream PTR
      (list_world (list_stream (Some keep_with_subject) (Some st_a) 0) [st_d])
    = Ret (tt, w')
    /\ obj w' = None
    /\ env w' = [st_d]
    /\ log w' = [CallFinished; FreeStatement st_a; FreeStream]
    /\ finalize_calls (log w') = 1%nat.
Proof.
  apply (free_stream_finalizes_once nat list_env unit
           (list_world (list_stream (Some keep_with_subject) (Some st_a) 0)
              [st_d])
           (list_stream (Some keep_with_subject) (Some st_a) 0) [st_d]);
    reflexivity.
Defined.

(** Replacing an installed map while a statement is buffered. *)
Lemma set_map_frame_witness :
  exists s',
    librdf_stream_set_map PTR None None
      (list_world (list_stream (Some keep_with_subject) (Some st_a) 0) [st_d])
    = Ret (tt, list_world s' [st_d])
    /\ map s' = None /\ map_context s' = None
    /\ context s' = None
    /\ end_of_stream s' = list_end_of_stream
    /\ next_statement s' = list_next_statement
    /\ finished s' = list_finished
    /\ next s' = Some st_a
    /\ is_end_stream s' = 0.
Proof.
  apply (set_map_frame nat list_env unit
           (list_world (list_stream (Some keep_with_subject) (Some st_a) 0)
              [st_d])
           (list_stream (Some keep_with_subject) (Some st_a) 0) None None).
  reflexivity.
Defined.

(** A prototype with the subject unset, and an adapter environment with
    the selector [fld], the nodes [ns] to come and the allocation
    outcomes [al]. *)
Definition proto : librdf_statement nat := triple None (Some 7%nat) (Some 8%nat).

Definition adapter_state (fld : Z) (ns : list nat) (al : list bool)
  : adapter_env nat :=
  {| nodes := Some ns;
     scontext := Some {| iterator := PTR; statement := proto; field := fld |};
     allocs := al;
     freed_nodes := [] |}.

(** Nodes 41 and 42 into the subject of the prototype, with the
    selectors numbered 0, 1, 2. *)
Lemma adapter_yields_one_clone_per_node_witness :
  exists sts e',
    pull 0 1 2 2 (Some SCONTEXT) (adapter_state 0 [41; 42]%nat [])
    = Ret (Some <$> sts, e')
    /\ Forall2 (filled 0 1 2 0 proto) [41; 42]%nat sts
    /\ nodes e' = Some []
    /\ scontext e' = scontext (adapter_state 0 [41; 42]%nat [])
    /\ freed_nodes e' = []
    /\ librdf_stream_from_node_iterator_next_statement 0 1 2
         (Some SCONTEXT) e'
       = Ret (None, e').
Proof.
  apply (adapter_yields_one_clone_per_node nat 0 1 2 0 proto [41; 42]%nat
           (adapter_state 0 [41; 42]%nat []));
    try lia; try reflexivity.
  constructor.
Defined.

(** The selector 7 is none of 0, 1, 2: with a node at hand the first
    call of the next operation is fatal. *)
Lemma field_selector_checked_after_clone_witness :
  librdf_stream_from_node_iterator_next_statement 0 1 2 (Some SCONTEXT)
    (adapter_state 7 [41]%nat [])
  = Fatal.
Proof.
  apply (proj1 (proj2 (field_selector_checked_after_clone nat 0 1 2 7))
           eq_refl (adapter_state 7 [41]%nat [])
           {| iterator := PTR; statement := proto; field := 7 |}
           41%nat []);
    try reflexivity.
  constructor.
Defined.

(** With the same illegal selector and no node to pull, the first call
    of the next operation is not fatal: it returns NULL. *)
Lemma illegal_field_not_fatal_on_exhausted_sequence :
  ~ (forall (fld : Z) (e : adapter_env nat)
            (sc : librdf_stream_from_node_iterator_stream_context nat),
        legal_field 0 1 2 fld = false ->
        scontext e = Some sc -> iterator sc = PTR -> field sc = fld ->
        librdf_stream_from_node_iterator_next_statement 0 1 2
          (Some SCONTEXT) e
        = Fatal).
Proof.
  intros H.
  specialize (H 7 (adapter_state 7 [] [])
                {| iterator := PTR; statement := proto; field := 7 |}
                eq_refl eq_refl eq_refl eq_refl).
  discriminate H.
Qed.

(** The clone fails after node 41 was pulled: 41 is released and NULL is
    returned. *)
Lemma clone_failure_reports_exhaustion_witness :
  librdf_stream_from_node_iterator_next_statement 0 1 2 (Some SCONTEXT)
    (adapter_state 0 [41; 42]%nat [false; true])
  = Ret (None,
         {| nodes := Some [42%nat];
            scontext := Some {| iterator := PTR; statement := proto;
                                field := 0 |};
            allocs := [true];
            freed_nodes := [41%nat] |})
  /\ (forall e0,
        scontext e0
        = Some {| iterator := PTR; statement := proto; field := 0 |} ->
        nodes e0 = Some [] ->
        librdf_stream_from_node_iterator_next_statement 0 1 2
          (Some SCONTEXT) e0
        = Ret (None, e0)).
Proof.
  apply (clone_failure_reports_exhaustion nat 0 1 2
           (adapter_state 0 [41; 42]%nat [false; true])
           {| iterator := PTR; statement := proto; field := 0 |}
           41%nat [42%nat] [true]);
    reflexivity.
Defined.

(** A stream built by the constructor over the nodes 41 and 42, filling
    the object of a prototype, and driven by five calls. *)
Definition object_proto : librdf_statement nat :=
  triple (Some 5%nat) (Some 7%nat) None.

Definition before_construction : world nat (adapter_env nat) adapter_addr :=
  {| obj := None;
     env := {| nodes := Some [41; 42]%nat; scontext := None;
               allocs := []; freed_nodes := [] |};
     log := [] |}.

Lemma stream_from_node_iterator_serves_clones_witness :
  exists w rs w',
    librdf_new_stream_from_node_iterator 0 1 2 PTR object_proto 2
      before_construction
    = Ret (PTR, w)
    /\ run_ops 3 PTR [OpEnd; OpNext; OpNext; OpEnd; OpNext] w = Ret (rs, w')
    /\ nexts rs
       = take (length (nexts rs))
           ((Some <$> [triple (Some 5%nat) (Some 7%nat) (Some 41%nat);
                       triple (Some 5%nat) (Some 7%nat) (Some 42%nat)])
              ++ replicate (length (nexts rs)) None).
Proof.
  apply (stream_from_node_iterator_serves_clones nat 0 1 2 2 object_proto
           [41; 42]%nat before_construction 3%nat
           [OpEnd; OpNext; OpNext; OpEnd; OpNext]);
    try reflexivity.
  - constructor.
  - simpl. lia.
Defined.

(** The loop passes over b and d, which the map discards, and returns
    a: three pulls, and c is still to come. *)
Lemma get_next_mapped_skips_discarded_witness :
  exists w',
    librdf_stream_get_next_mapped_statement 3 PTR
      (list_world (list_stream (Some keep_with_subject) None 0)
         [st_b; st_d; st_a; st_c])
    = Ret (Some st_a, w')
    /\ obj w' = Some (list_stream (Some keep_with_subject) None 0)
    /\ env w' = [st_c]
    /\ pulls (log w') = 3%nat.
Proof.
  refine (proj1
            (get_next_mapped_skips_discarded nat list_env unit
               None list_end_of_stream list_next_statement always
               (fun e => e)
               list_end_of_stream_spec list_next_statement_spec
               (Some keep_with_subject) None with_subject
               keep_with_subject_spec
               keep_with_subject [st_b; st_d] [st_a; st_c] 3%nat
               (list_world (list_stream (Some keep_with_subject) None 0)
                  [st_b; st_d; st_a; st_c])
               (list_stream (Some keep_with_subject) None 0)
               _ _ _ _ _ _ _)
            st_a [st_c] st_a _ _).
  - reflexivity.
  - repeat split.
  - reflexivity.
  - exact I.
  - repeat constructor.
  - reflexivity.
  - simpl. lia.
  - reflexivity.
  - reflexivity.
Defined.

(** Allocators of the stream object that succeed and that fail. *)
Definition calloc_ok : list_env -> bool * list_env := fun e => (true, e).
Definition calloc_fails : list_env -> bool * list_env := fun e => (false, e).

Definition no_stream (e : list_env) : world nat list_env unit :=
  {| obj := None; env := e; log := [] |}.

(** A session over a, b, c, d with the map that discards b and d. *)
Lemma session_serves_and_cleans_up_witness :
  exists rs w' evs,
    session calloc_ok None list_end_of_stream list_next_statement
      (Some keep_with_subject) None list_finished 5 calls
      (no_stream [st_a; st_b; st_c; st_d])
    = Ret (rs, w')
    /\ nexts rs
       = take (length (nexts rs))
           ((Some <$> [st_a; st_c]) ++ replicate (length (nexts rs)) None)
    /\ ends rs = [false; false; false; true]
    /\ obj w' = None
    /\ log w' = evs
    /\ finalize_calls evs = 1%nat
    /\ (is_Some (Some keep_with_subject) ->
        map_results evs = delivered rs ++ released evs)
    /\ (Some keep_with_subject = None ->
        pulled evs = delivered rs /\ released evs = []).
Proof.
  refine (session_serves_and_cleans_up nat list_env unit calloc_ok
            None list_end_of_stream list_next_statement always (fun e => e)
            list_end_of_stream_spec list_next_statement_spec
            (Some keep_with_subject) None with_subject
            keep_with_subject_spec
            list_finished 5%nat calls
            (no_stream [st_a; st_b; st_c; st_d])
            [st_a; st_b; st_c; st_d]
            _ _ _ _ _ _).
  - reflexivity.
  - exact I.
  - reflexivity.
  - intros e _. exists e. reflexivity.
  - reflexivity.
  - simpl. lia.
Defined.

(** The allocation fails: NULL, and nothing is written or called. *)
Lemma new_stream_allocation_failure_witness :
  librdf_new_stream calloc_fails None list_end_of_stream
    list_next_statement list_finished (no_stream [st_a])
  = Ret (NULL, no_stream [st_a])
  /\ (stream <- librdf_new_stream calloc_fails None list_end_of_stream
                  list_next_statement list_finished ;;
      librdf_stream_end 1 stream) (no_stream [st_a])
     = Ret (1, no_stream [st_a])
  /\ (stream <- librdf_new_stream calloc_fails None list_end_of_stream
                  list_next_statement list_finished ;;
      librdf_stream_next 1 stream) (no_stream [st_a])
     = Undef
  /\ (stream <- librdf_new_stream calloc_fails None list_end_of_stream
                  list_next_statement list_finished ;;
      librdf_free_stream stream) (no_stream [st_a])
     = Undef.
Proof.
  exact (new_stream_allocation_failure nat list_env unit calloc_fails
           None list_end_of_stream list_next_statement list_finished
           1%nat (no_stream [st_a]) [st_a] eq_refl).
Defined.

(** A producer whose end test answers 7 on the empty list. *)
Definition seven_at_end : end_of_stream_fn list_env unit :=
  fun _ e => Ret (match e with [] => 7 | _ :: _ => 0 end, e).

Definition seven_stream (flag : Z) : librdf_stream nat list_env unit :=
  {| context := None;
     end_of_stream := seven_at_end;
     next_statement := list_next_statement;
     finished := list_finished;
     is_end_stream := flag;
     next := None;
     map := None;
     map_context := None |}.

(** The first [end] returns the producer's 7 and stores it; the second
    returns 1. *)
Lemma end_without_map_latches_raw_answer_witness :
  let w1 := {| obj := Some (seven_stream 7); env := [];
               log := [CallEndOfStream 7] |} in
  librdf_stream_end 1 PTR (list_world (seven_stream 0) []) = Ret (7, w1)
  /\ librdf_stream_end 1 PTR w1 = Ret (1, w1)
  /\ librdf_stream_next 1 PTR w1 = Ret (None, w1).
Proof.
  exact (end_without_map_latches_raw_answer nat list_env unit 1%nat
           (list_world (seven_stream 0) []) (seven_stream 0) 7 []
           eq_refl eq_refl eq_refl eq_refl eq_refl).
Defined.

(** With a buffered: taking the map away leaves a in the slot and
    [next] returns c from the producer; installing another map hands a
    out. *)
Lemma set_map_with_buffered_statement_witness :
  (exists w2 w3,
      run_ops 1 PTR [OpSetMap None None; OpNext]
        (list_world (list_stream (Some keep_with_subject) (Some st_a) 0)
           [st_c])
      = Ret ([RSetMap; RNext (Some st_c)], w2)
      /\ lookahead w2 = [st_a]
      /\ log w2 = [CallNextStatement (Some st_c)]
      /\ librdf_free_stream PTR w2 = Ret (tt, w3)
      /\ log w3 = log w2 ++ [CallFinished; FreeStatement st_a; FreeStream])
  /\ (exists w2,
        run_ops 1 PTR [OpSetMap (Some keep_with_subject) None; OpEnd; OpNext]
          (list_world (list_stream (Some keep_with_subject) (Some st_a) 0)
             [st_c])
        = Ret ([RSetMap; REnd 0; RNext (Some st_a)], w2)
        /\ lookahead w2 = []
        /\ env w2 = [st_c] /\ log w2 = []).
Proof.
  pose proof (set_map_with_buffered_statement nat list_env unit 1%nat
                (list_world
                   (list_stream (Some keep_with_subject) (Some st_a) 0)
                   [st_c])
                (list_stream (Some keep_with_subject) (Some st_a) 0) st_a
                eq_refl eq_refl eq_refl) as [Hnone Hsome].
  split.
  - exact (Hnone None (Some st_c) [] [] eq_refl eq_refl).
  - exact (Hsome keep_with_subject None).
Defined.

(** The outcome of the eight calls on the mapped stream over a, b, c,
    d. *)
Definition calls_start : world nat list_env unit :=
  list_world (list_stream (Some keep_with_subject) None 0)
    [st_a; st_b; st_c; st_d].

Definition calls_outcome : list (result nat) * world nat list_env unit :=
  match run_ops 5 PTR calls calls_start with
  | Ret p => p
  | _ => ([], calls_start)
  end.

Lemma run_never_finalizes_or_releases_witness :
  run_ops 5 PTR calls calls_start = Ret calls_outcome
  /\ exists s' evs,
      obj (snd calls_outcome) = Some s'
      /\ same_producer (list_stream (Some keep_with_subject) None 0) s'
      /\ log (snd calls_outcome) = evs
      /\ finalize_calls evs = 0%nat
      /\ length (List.filter is_release evs) = 0%nat.
Proof.
  split; [reflexivity|].
  exact (run_never_finalizes_or_releases nat list_env unit 5%nat calls
           calls_start (list_stream (Some keep_with_subject) None 0)
           (fst calls_outcome) (snd calls_outcome) eq_refl eq_refl).
Defined.

Lemma run_conserves_statements_witness :
  run_ops 5 PTR calls calls_start = Ret calls_outcome
  /\ exists evs,
      log (snd calls_outcome) = evs
      /\ (is_Some (Some keep_with_subject) ->
          map_args evs = pulled evs
          /\ map_results evs
             = delivered (fst calls_outcome)
                 ++ lookahead (snd calls_outcome))
      /\ (Some keep_with_subject = None ->
          map_args evs = []
          /\ pulled evs = delivered (fst calls_outcome)
          /\ lookahead (snd calls_outcome) = []).
Proof.
  split; [reflexivity|].
  exact (run_conserves_statements nat list_env unit 5%nat calls
           calls_start (list_stream (Some keep_with_subject) None 0)
           (fst calls_outcome) (snd calls_outcome)
           eq_refl eq_refl eq_refl).
Defined.

(** The world before the constructor is called, with the allocation
    outcomes [al] to come. *)
Definition construction_with (al : list bool)
  : world nat (adapter_env nat) adapter_addr :=
  {| obj := None;
     env := {| nodes := Some [41; 42]%nat; scontext := None;
               allocs := al; freed_nodes := [] |};
     log := [] |}.

Lemma new_stream_from_node_iterator_failures_witness :
  librdf_new_stream_from_node_iterator 0 1 2 PTR object_proto 2
    (construction_with [false])
  = Ret (NULL, construction_with [])
  /\ librdf_new_stream_from_node_iterator 0 1 2 PTR object_proto 2
       (construction_with [true; false])
     = Ret (NULL,
            {| obj := None;
               env := {| nodes := None; scontext := None;
                         allocs := []; freed_nodes := [] |};
               log := [] |})
  /\ librdf_new_stream_from_node_iterator 0 1 2 NULL object_proto 2
       (construction_with [true])
     = Undef.
Proof.
  split; [|split].
  - exact (proj1 (new_stream_from_node_iterator_failures nat 0 1 2
                    object_proto 2 (construction_with [false]))
             PTR [] eq_refl).
  - exact (proj1 (proj2 (new_stream_from_node_iterator_failures nat 0 1 2
                           object_proto 2 (construction_with [true; false])))
             [41; 42]%nat [] eq_refl eq_refl).
  - exact (proj2 (proj2 (new_stream_from_node_iterator_failures nat 0 1 2
                           object_proto 2 (construction_with [true])))
             [] eq_refl).
Defined.

(** A stream over the adapter, and a map that keeps every statement. *)
Definition keep_all : map_fn nat (adapter_env nat) adapter_addr :=
  fun _ st e => Ret (Some st, e).

Definition adapter_stream
    (m : option (map_fn nat (adapter_env nat) adapter_addr))
    (slot : option (librdf_statement nat))
  : librdf_stream nat (adapter_env nat) adapter_addr :=
  {| context := Some SCONTEXT;
     end_of_stream := librdf_stream_from_node_iterator_end_of_stream;
     next_statement := librdf_stream_from_node_iterator_next_statement 0 1 2;
     finished := librdf_stream_from_node_iterator_finished;
     is_end_stream := 0;
     next := slot;
     map := m;
     map_context := None |}.

Definition adapter_world
    (s : librdf_stream nat (adapter_env nat) adapter_addr)
    (ns : list nat) (al : list bool)
  : world nat (adapter_env nat) adapter_addr :=
  {| obj := Some s; env := adapter_state 0 ns al; log := [] |}.

(** Destroying a stream over the adapter with a buffered and the node
    42 still to come. *)
Lemma free_stream_over_node_iterator_witness :
  let w' := {| obj := None;
               env := {| nodes := None; scontext := None; allocs := [];
                         freed_nodes := [] |};
               log := [CallFinished; FreeStatement st_a; FreeStream] |} in
  librdf_free_stream PTR
    (adapter_world (adapter_stream (Some keep_all) (Some st_a)) [42%nat] [])
  = Ret (tt, w')
  /\ librdf_free_stream PTR w' = Undef
  /\ librdf_stream_from_node_iterator_next_statement 0 1 2
       (Some SCONTEXT) (env w')
     = Undef
  /\ librdf_stream_from_node_iterator_end_of_stream (Some SCONTEXT) (env w')
     = Undef.
Proof.
  exact (free_stream_over_node_iterator nat 0 1 2
           (adapter_world (adapter_stream (Some keep_all) (Some st_a))
              [42%nat] [])
           (adapter_stream (Some keep_all) (Some st_a))
           {| iterator := PTR; statement := proto; field := 0 |}
           [42%nat]
           eq_refl eq_refl eq_refl eq_refl eq_refl eq_refl).
Defined.

(** The clone fails for 41: without a map 42 is served afterwards, with
    a map the stream has ended. *)
Lemma clone_failure_ends_stream_only_with_map_witness :
  (exists w',
      run_ops 1 PTR [OpNext; OpEnd; OpNext]
        (adapter_world (adapter_stream None None) [41; 42; 43]%nat
           [false; true])
      = Ret ([RNext None; REnd 0;
              RNext (Some (triple (Some 42%nat) (Some 7%nat) (Some 8%nat)))],
             w')
      /\ nodes (env w') = Some [43%nat]
      /\ freed_nodes (env w') = [41%nat])
  /\ (exists w' s',
        run_ops 1 PTR [OpNext; OpEnd; OpNext]
          (adapter_world (adapter_stream (Some keep_all) None)
             [41; 42; 43]%nat [false; true])
        = Ret ([RNext None; REnd 1; RNext None], w')
        /\ obj w' = Some s' /\ is_end_stream s' = 1
        /\ nodes (env w') = Some [42; 43]%nat
        /\ freed_nodes (env w') = [41%nat]).
Proof.
  split.
  - refine (proj1
              (clone_failure_ends_stream_only_with_map nat 0 1 2 1%nat 0
                 proto 41%nat 42%nat [43%nat] [true]
                 (adapter_world (adapter_stream None None) [41; 42; 43]%nat
                    [false; true])
                 (adapter_stream None None)
                 eq_refl eq_refl eq_refl eq_refl eq_refl eq_refl eq_refl
                 eq_refl eq_refl eq_refl _)
              eq_refl).
    repeat constructor.
  - refine (proj2
              (clone_failure_ends_stream_only_with_map nat 0 1 2 1%nat 0
                 proto 41%nat 42%nat [43%nat] [true]
                 (adapter_world (adapter_stream (Some keep_all) None)
                    [41; 42; 43]%nat [false; true])
                 (adapter_stream (Some keep_all) None)
                 eq_refl eq_refl eq_refl eq_refl eq_refl eq_refl eq_refl
                 eq_refl eq_refl eq_refl _)
              keep_all eq_refl _).
    + repeat constructor.
    + lia.
Defined.

(** A map over the adapter that keeps the statements whose object is an
    even number. *)
Definition even_object (st : librdf_statement nat)
  : option (librdf_statement nat) :=
  match object st with
  | Some n => if Nat.even n then Some st else None
  | None => None
  end.

Definition keep_even_object : map_fn nat (adapter_env nat) adapter_addr :=
  fun _ st e => Ret (even_object st, e).

(** The constructor over the nodes 41 and 42, the map installed, five
    calls: only the clone with 42 is handed out. *)
Lemma mapped_stream_from_node_iterator_serves_accepted_witness :
  exists rs w',
    (stream <- librdf_new_stream_from_node_iterator 0 1 2 PTR object_proto 2 ;;
     librdf_stream_set_map stream (Some keep_even_object) None ;;;
     run_ops 3 stream [OpEnd; OpNext; OpNext; OpEnd; OpNext])
      before_construction
    = Ret (rs, w')
    /\ nexts rs
       = take (length (nexts rs))
           ((Some <$> [triple (Some 5%nat) (Some 7%nat) (Some 42%nat)])
              ++ replicate (length (nexts rs)) None)
    /\ ends rs = [false; true].
Proof.
  refine (mapped_stream_from_node_iterator_serves_accepted nat 0 1 2 2
            object_proto [41; 42]%nat keep_even_object None even_object
            before_construction 3%nat
            [OpEnd; OpNext; OpNext; OpEnd; OpNext]
            _ _ _ _ _ _).
  - reflexivity.
  - reflexivity.
  - constructor.
  - reflexivity.
  - reflexivity.
  - simpl. lia.
Defined.
